(** * AxiomSon: the equation-to-music engine and the interactive scheduler

  A shallow embedding of [mods/runner.py] (the bounded scheduler of the
  interactive prompt), [mods/parser.py] (expression parsing) and
  [mods/engine.py] (the time-stepped rendering loop), followed by the
  properties established about them.

  Conventions of the embedding:
  - Python floats are modelled by exact rationals ([Q]); rounding error,
    infinities and NaN are outside the model.
  - Python dictionaries keyed by strings are [gmap string _]; dictionaries
    that are only iterated are association lists in insertion order.
  - [sympy] and [numpy.tanh] are external: they enter through the
    [Evaluator] interface. *)

From Stdlib Require Import QArith Qround Qabs ZArith Lia Lqa Ascii.
From stdpp Require Import gmap strings list fin_maps pretty.

(* ===================================================================== *)
(** ** mods/runner.py: the scheduler *)
(* ===================================================================== *)

Module Runner.

Section Scheduler.
(** [Equation] objects are compared by identity in Python (the class has
    no [__eq__]); the scheduler only moves references around. *)
Context {Equation : Type} `{EqDecision Equation}.

(** The module-level lists [_active] and [_queue]. [started] is the
    sequence of "[runner] Starting equation" lines printed by
    [_start_equation], i.e. the admission order. *)
Record sched := Sched {
  _active : list Equation;
  _queue : list Equation;
  started : list Equation
}.

Definition initial : sched := Sched [] [] [].

(** [list.remove(x)]: drops the first element equal to [x]; [None] stands
    for the [ValueError] raised when there is none. *)
Fixpoint list_remove (x : Equation) (l : list Equation) : option (list Equation) :=
  match l with
  | [] => None
  | y :: l' => if decide (y = x) then Some l' else cons y <$> list_remove x l'
  end.

(** [_start_equation], up to the creation of the timer. *)
Definition _start_equation (eq : Equation) (s : sched) : sched :=
  Sched (_active s ++ [eq]) (_queue s) (started s ++ [eq]).

(** [_finish], the timer callback of [_start_equation]: the two critical
    sections run back to back. *)
Definition _finish (eq : Equation) (s : sched) : sched :=
  let s1 :=
    match list_remove eq (_active s) with
    | Some a => Sched a (_queue s) (started s)
    | None => s
    end in
  match _queue s1 with
  | next_eq :: rest =>
      if decide (length (_active s1) < 3)%nat
      then _start_equation next_eq (Sched (_active s1) rest (started s1))
      else s1
  | [] => s1
  end.

(** [_maybe_start_or_queue]; the spawned thread runs [_start_equation]
    at once. *)
Definition _maybe_start_or_queue (eq : Equation) (s : sched) : sched :=
  if decide (length (_active s) < 3)%nat
  then _start_equation eq s
  else Sched (_active s) (_queue s ++ [eq]) (started s).

(** The two operations as atomic steps. *)
Inductive op := Submit (eq : Equation) | Complete (eq : Equation).

Definition exec (s : sched) (o : op) : sched :=
  match o with
  | Submit eq => _maybe_start_or_queue eq s
  | Complete eq => _finish eq s
  end.

Definition run (ops : list op) : sched := fold_left exec ops initial.

(** Submissions of a history, in order. *)
Definition submitted (ops : list op) : list Equation :=
  omap (fun o => match o with Submit eq => Some eq | Complete _ => None end) ops.

(** The active list never overflows, and the queue is only non-empty
    while the active list is full. *)
Definition full_or_idle (s : sched) : Prop :=
  (length (_active s) <= 3)%nat /\
  (_queue s <> [] -> length (_active s) = 3%nat).

End Scheduler.

Arguments sched : clear implicits.
Arguments op : clear implicits.

End Runner.

(* ===================================================================== *)
(** ** Python built-ins used by the engine *)
(* ===================================================================== *)

Module Py.

(** [int(x)] on a float: truncation toward zero. *)
Definition int (q : Q) : Z := Z.quot (Qnum q) (Zpos (Qden q)).

(** [round(x)] with one argument: nearest integer, ties to even. *)
Definition round (q : Q) : Z :=
  let f := Qfloor q in
  match Qcompare (q - inject_Z f) (1 # 2) with
  | Lt => f
  | Gt => (f + 1)%Z
  | Eq => if Z.even f then f else (f + 1)%Z
  end.

(** [max(a, b)] and [min(a, b)] return the first argument unless the
    second is strictly larger (resp. smaller). *)
Definition max (a b : Q) : Q := if Qle_bool b a then a else b.
Definition min (a b : Q) : Q := if Qle_bool a b then a else b.

(** Whitespace removed by [str.strip()], within ASCII. *)
Definition is_space (c : ascii) : bool :=
  let n := nat_of_ascii c in
  ((9 <=? n) && (n <=? 13) || (28 <=? n) && (n <=? 32))%nat.

Fixpoint lstrip (s : string) : string :=
  match s with
  | String c s' => if is_space c then lstrip s' else s
  | EmptyString => EmptyString
  end.

(** Drops trailing whitespace: a character is kept when something other
    than whitespace follows it or when it is not whitespace itself. *)
Fixpoint rstrip (s : string) : string :=
  match s with
  | String c s' =>
      match rstrip s' with
      | EmptyString => if is_space c then EmptyString else String c EmptyString
      | r => String c r
      end
  | EmptyString => EmptyString
  end.

Definition strip (s : string) : string := rstrip (lstrip s).

(** [c in s] for a one-character string [c]. *)
Fixpoint contains (c : ascii) (s : string) : bool :=
  match s with
  | String c' s' => if decide (c' = c) then true else contains c s'
  | EmptyString => false
  end.

(** [s.split(c, 1)] when [c] occurs in [s]: the text before and after the
    first occurrence. Without an occurrence Python returns a one-element
    list, here [(s, None)]. *)
Fixpoint split1 (c : ascii) (s : string) : string * option string :=
  match s with
  | String c' s' =>
      if decide (c' = c) then (EmptyString, Some s')
      else let '(a, b) := split1 c s' in (String c' a, b)
  | EmptyString => (EmptyString, None)
  end.

(** [str.lower()] within ASCII. *)
Definition lower_char (c : ascii) : ascii :=
  let n := nat_of_ascii c in
  if ((65 <=? n) && (n <=? 90))%nat then ascii_of_nat (n + 32) else c.

Fixpoint lower (s : string) : string :=
  match s with
  | String c s' => String (lower_char c) (lower s')
  | EmptyString => EmptyString
  end.

(** [s.replace(a, b)] for one-character strings [a] and [b]. *)
Fixpoint replace (a b : ascii) (s : string) : string :=
  match s with
  | String c s' => String (if decide (c = a) then b else c) (replace a b s')
  | EmptyString => EmptyString
  end.

End Py.

(* ===================================================================== *)
(** ** The external evaluator (sympy, numpy) *)
(* ===================================================================== *)

(** What the engine uses of [sympy] and [numpy]:
    - [sympify text] is the parsed expression, [None] when [sympy.sympify]
      raises;
    - [free_symbols e] are the names of [e.free_symbols];
    - [lambdify3 e] is [float(sp.lambdify((x, y, z), e)(...))] and
      [lambdify4 e] is [float(sp.lambdify((x, y, z, t), e)(...))]; [None]
      when the call or the conversion raises. [lambdify] itself is taken
      to succeed on every expression [sympify] returns;
    - [tanh] is [float(np.tanh(v))]. *)
Class Evaluator := {
  Expr : Type;
  sympify : string -> option Expr;
  free_symbols : Expr -> gset string;
  lambdify3 : Expr -> Q -> Q -> Q -> option Q;
  lambdify4 : Expr -> Q -> Q -> Q -> Q -> option Q;
  tanh : Q -> Q
}.

(* ===================================================================== *)
(** ** mods/parser.py *)
(* ===================================================================== *)

Module Parser.
Section WithEvaluator.
Context `{Evaluator}.

(** The exceptions that leave [parse_expr]. *)
Inductive error :=
| SympifyError (text : string)
| ValueError (unsupported : gset string).

Record meta := Meta {
  meta_expr : Expr;
  meta_symbols : gset string;
  meta_text : string
}.

Definition allowed : gset string := {[ "x"; "y"; "z" ]}.

Definition parse_expr (expr_text : string)
  : error + ((Q -> Q -> Q -> option Q) * meta) :=
  match sympify expr_text with
  | None => inl (SympifyError expr_text)
  | Some expr =>
      let free := free_symbols expr in
      if decide (free ⊆ allowed)
      then inr (lambdify3 expr, Meta expr free expr_text)
      else inl (ValueError (free ∖ allowed))
  end.

End WithEvaluator.
End Parser.

(* ===================================================================== *)
(** ** mods/engine.py *)
(* ===================================================================== *)

Module Engine.
Local Open Scope Q_scope.

(** *** Pure helpers *)

Definition scales : gmap string (list Z) :=
  list_to_map [
    ("major", [0; 2; 4; 5; 7; 9; 11]);
    ("minor", [0; 2; 3; 5; 7; 8; 10]);
    ("pentatonic", [0; 2; 4; 7; 9]);
    ("a_minor", [0; 2; 3; 5; 7; 8; 10]);
    ("b_minor", [0; 2; 3; 5; 7; 9; 11]);
    ("c_minor", [0; 2; 3; 5; 7; 8; 10]);
    ("c_major", [0; 2; 4; 5; 7; 9; 11]);
    ("d_minor", [0; 2; 3; 5; 7; 8; 10]);
    ("d_major", [0; 2; 4; 5; 7; 9; 11]);
    ("e_minor", [0; 2; 3; 5; 7; 8; 10]);
    ("e_major", [0; 2; 4; 5; 7; 9; 11]);
    ("f_minor", [0; 2; 3; 5; 7; 8; 10]);
    ("f_major", [0; 2; 4; 5; 7; 9; 11]);
    ("g_minor", [0; 2; 3; 5; 7; 8; 10]);
    ("g_major", [0; 2; 4; 5; 7; 9; 11])
  ]%Z.

(** The fallback of [scales.get] is [scales['minor']]. *)
Definition _get_scale_degrees (name : string) : list Z :=
  let key :=
    match name with
    | EmptyString => EmptyString
    | _ => Py.replace "-" "_" (Py.lower name)
    end in
  default [0; 2; 3; 5; 7; 8; 10]%Z (scales !! key).

Definition _quantize_time (t quant beat_seconds : Q) : Q :=
  if Qle_bool quant 0 then t
  else
    let grid := beat_seconds * quant in
    inject_Z (Py.round (t / grid)) * grid.

(** *** Configuration *)

(** The values read from [e['mapping']], after the defaults of
    [mapping.get] and the [int]/[float] conversions; [scale] is the empty
    string when the key is absent or empty. *)
Record Mapping := {
  base_midi : Z;
  scale : string;
  octave_range : Z;
  polyphony : Z;
  rhythm_quant : Q;
  velocity_curve : string;
  instrument : string
}.

(** A reference to a dictionary of the caller. *)
Abbreviation loc := nat (only parsing).

(** One entry of [config['equations']], after the defaults of [e.get].
    [vars] refers to the caller's dictionary ([None]: key absent);
    [eval_rate] is the parsed fraction; [active_window] is
    [(start_t, end_t)]; a limit entry lists the outcome of [float] on each
    of its elements ([None] when the conversion raises), an entry that
    cannot be indexed being the empty list. *)
Record Equation := {
  name : string;
  expr : string;
  vars : option loc;
  updates : list string;
  eval_rate : Q;
  active_window : Q * Q;
  mapping : Mapping;
  limits : list (string * list (option Q))
}.

Record Config := {
  tempo : Q;
  equations : list Equation
}.

(** [pretty_midi.Note] and [pretty_midi.Instrument]. *)
Record Note := {
  velocity : Z;
  pitch : Z;
  start : Q;
  end_ : Q
}.

Record Instrument := {
  program : Z;
  track_name : string;
  notes : list Note
}.

(** *** The store of dictionaries *)

(** Dictionaries live in a store and are used through references, so
    that writes through an alias are visible; allocation appends. *)
Abbreviation heap := (list (gmap string Q)) (only parsing).

Definition load (h : heap) (l : loc) : gmap string Q := default ∅ (h !! l).

(** [d.get(k, dflt)] on the dictionary at [l]. *)
Definition dict_get (h : heap) (l : loc) (k : string) (dflt : Q) : Q :=
  default dflt (load h l !! k).

(** [d[k] = v] on the dictionary at [l]. *)
Definition dict_setitem (h : heap) (l : loc) (k : string) (v : Q) : heap :=
  alter (<[k := v]>) l h.

(** A new dictionary with contents [d]. *)
Definition alloc (h : heap) (d : gmap string Q) : heap * loc :=
  (h ++ [d], length h).

(** *** One step of the loop *)

Definition beat_seconds (tempo : Q) : Q := 60 / tempo.

(** Lines 198-200. *)
Definition step_dt (beat_seconds frac : Q) : Q :=
  let dt := beat_seconds * frac in
  if Qle_bool dt 0 then beat_seconds * (125 # 1000) else dt.

(** Lines 272-276. *)
Definition total_steps (scale_degrees : list Z) (octaves : Z) : Z :=
  let total_steps := (Z.of_nat (length scale_degrees) * octaves)%Z in
  if (total_steps <=? 0)%Z then Z.of_nat (length scale_degrees) else total_steps.

Definition deg_index (scale_degrees : list Z) (octaves : Z) (v_scaled : Q) : Z :=
  let total_steps := total_steps scale_degrees octaves in
  let deg_index := Py.int (v_scaled * inject_Z total_steps) in
  Z.max 0 (Z.min (total_steps - 1) deg_index).

(** Lines 280-284, the body of [for p in range(poly)]. *)
Definition voice_pitch (base_midi : Z) (scale_degrees : list Z) (deg_index p : Z) : Z :=
  let d := (deg_index + p)%Z in
  let scale_idx := (d mod Z.of_nat (length scale_degrees))%Z in
  let octave_shift := (d / Z.of_nat (length scale_degrees))%Z in
  let pitch :=
    (base_midi + nth (Z.to_nat scale_idx) scale_degrees 0 + 12 * octave_shift)%Z in
  Z.max 0 (Z.min 127 pitch).

Definition chosen (base_midi : Z) (scale_degrees : list Z) (poly deg_index : Z) : list Z :=
  voice_pitch base_midi scale_degrees deg_index <$> seqZ 0 poly.

(** Lines 288-291. *)
Definition vel (vel_curve : string) (v_scaled : Q) : Z :=
  if decide (vel_curve = "exp")
  then Py.int (Py.max 1 (Py.min 127 (1 + v_scaled ^ 2 * 126)))
  else Py.int (Py.max 1 (Py.min 127 (1 + v_scaled * 126))).

(** Lines 294-297: [(start_q, end_q)]. *)
Definition note_interval (t dt end_t rhythm_quant beat_seconds : Q) : Q * Q :=
  let start_q := _quantize_time t rhythm_quant beat_seconds in
  let end_q := _quantize_time (Py.min end_t (t + dt)) rhythm_quant beat_seconds in
  if Qle_bool end_q start_q
  then (start_q, start_q + Py.max (1 # 100) dt)
  else (start_q, end_q).

Definition fn3 := Q -> Q -> Q -> option Q.
Definition fn4 := Q -> Q -> Q -> Q -> option Q.

(** Lines 255-261: the value at the current variables, then at
    [(t, t, t)], then [0.0]. *)
Definition evaluate (fn : fn3) (h : heap) (vars_local : loc) (t : Q) : Q :=
  match fn (dict_get h vars_local "x" 0) (dict_get h vars_local "y" 0)
           (dict_get h vars_local "z" 0) with
  | Some v => v
  | None => match fn t t t with Some v => v | None => 0 end
  end.

(** Lines 306-311: one rule. *)
Definition apply_update (t : Q) (vars_local : loc) (h : heap) (rule : string * fn4) : heap :=
  let '(varname, f_rhs) := rule in
  match f_rhs (dict_get h vars_local "x" 0) (dict_get h vars_local "y" 0)
              (dict_get h vars_local "z" 0) t with
  | Some newval => dict_setitem h vars_local varname newval
  | None => h
  end.

Definition apply_updates (update_fns : list (string * fn4)) (t : Q)
    (vars_local : loc) (h : heap) : heap :=
  fold_left (apply_update t vars_local) update_fns h.

(** Lines 314-321: one limit. *)
Definition apply_limit (vars_local : loc) (h : heap)
    (entry : string * list (option Q)) : heap :=
  let '(varname, lim) := entry in
  match lim !! 0%nat, lim !! 1%nat with
  | Some (Some threshold), Some (Some reset_to) =>
      if Qle_bool threshold (dict_get h vars_local varname 0)
      then dict_setitem h vars_local varname reset_to
      else h
  | _, _ => h
  end.

Definition apply_limits (limits : list (string * list (option Q)))
    (vars_local : loc) (h : heap) : heap :=
  fold_left (apply_limit vars_local) limits h.

(** *** Notions used in the statements *)

(** An interval set is well formed when it is non-empty, strictly
    increasing and stays within one octave. *)
Fixpoint increasing_from (lo : Z) (sd : list Z) : bool :=
  match sd with
  | [] => true
  | x :: rest => (lo <? x)%Z && (x <=? 11)%Z && increasing_from x rest
  end.

Definition scale_ok (sd : list Z) : bool :=
  match sd with
  | [] => false
  | x :: rest => (0 <=? x)%Z && (x <=? 11)%Z && increasing_from x rest
  end.

(** [clamp(x, lo, hi)] as the specification writes it. *)
Definition clamp (x lo hi : Q) : Q :=
  if Qlt_le_dec x lo then lo else if Qlt_le_dec hi x then hi else x.

(** The pitch of a voice before clamping. *)
Definition raw_pitch (base_midi : Z) (sd : list Z) (d : Z) : Z :=
  (base_midi + nth (Z.to_nat (d mod Z.of_nat (length sd))) sd 0
   + 12 * (d / Z.of_nat (length sd)))%Z.

(** [h'] differs from [h] at most in the dictionary at [l]. *)
Definition only_at (l : loc) (h h' : heap) : Prop :=
  length h' = length h /\ forall l', l' <> l -> h' !! l' = h !! l'.

(** *** Shapes of rules and limits *)

(** The two sides of a rule that passes the tests of lines 232-236: it
    contains '=' and its left side is one of x, y, z. *)
Definition rule_sides (upd : string) : option (string * string) :=
  if Py.contains "=" upd then
    let '(l, r) := Py.split1 "=" upd in
    if decide (Py.strip l ∈ ["x"; "y"; "z"])
    then Some (Py.strip l, Py.strip (default EmptyString r))
    else None
  else None.

(** A limit entry whose two conversions of lines 316-317 succeed. *)
Definition limit_ok (lim : list (option Q)) : bool :=
  match lim !! 0%nat, lim !! 1%nat with
  | Some (Some _), Some (Some _) => true
  | _, _ => false
  end.

(** *** Preparing the rules, stepping, rendering *)

(** What leaves [render_config] as an exception. [tempo = 0] makes
    [60.0 / tempo] raise before any equation is looked at. *)
Inductive exception :=
| ParseError (err : Parser.error)
| ZeroDivisionError.

(** How a run ends; [Diverged] stands for a stepping loop that is still
    running when the step budget is used up. *)
Inductive outcome :=
| Returned
| Raised (exc : exception)
| Diverged.

Section WithEvaluator.
Context `{Evaluator}.

(** Lines 231-239, the [for] loop inside the [try]: [None] when an
    exception leaves the loop. *)
Fixpoint collect_updates (updates : list string) : option (list (string * fn4)) :=
  match updates with
  | [] => Some []
  | upd :: rest =>
      if Py.contains "=" upd then
        let '(l, r) := Py.split1 "=" upd in
        let left := Py.strip l in
        let right := Py.strip (default EmptyString r) in
        if decide (left ∈ ["x"; "y"; "z"]) then
          match sympify right with
          | Some expr_rhs =>
              cons (left, lambdify4 expr_rhs) <$> collect_updates rest
          | None => None
          end
        else collect_updates rest
      else collect_updates rest
  end.

(** Lines 228-241: [except Exception: update_fns = []]. *)
Definition prepare_updates (updates : list string) : list (string * fn4) :=
  default [] (collect_updates updates).

(** Lines 264-302: the notes of one step whose raw value is [v]. *)
Definition step_notes (m : Mapping) (beat_seconds dt end_t v t : Q) : list Note :=
  let v_norm := tanh v in
  let v_scaled := (v_norm + 1) / 2 in
  let scale_name := match scale m with EmptyString => "a_minor" | s => s end in
  let scale_degrees := _get_scale_degrees scale_name in
  let deg_index := deg_index scale_degrees (octave_range m) v_scaled in
  let chosen := chosen (base_midi m) scale_degrees (polyphony m) deg_index in
  let vel := vel (velocity_curve m) v_scaled in
  let '(start_q, end_q) := note_interval t dt end_t (rhythm_quant m) beat_seconds in
  (fun pitch => Build_Note vel pitch start_q end_q) <$> chosen.

(** Lines 254-321: the body of the [while] loop, without [t += dt]. *)
Definition step (fn : fn3) (update_fns : list (string * fn4)) (e : Equation)
    (beat_seconds dt : Q) (vars_local : loc) (t : Q) (h : heap) : heap * list Note :=
  let v := evaluate fn h vars_local t in
  let ns := step_notes (mapping e) beat_seconds dt (snd (active_window e)) v t in
  let h1 := apply_updates update_fns t vars_local h in
  let h2 := apply_limits (limits e) vars_local h1 in
  (h2, ns).

(** Lines 253-323: [while t <= end_t + 1e-9]; [None] when the budget of
    steps runs out before the loop condition fails. *)
Fixpoint simulate (fuel : nat) (fn : fn3) (update_fns : list (string * fn4))
    (e : Equation) (beat_seconds dt : Q) (vars_local : loc) (t : Q) (h : heap)
    (notes : list Note) : option (heap * list Note) :=
  if Qle_bool t (snd (active_window e) + (1 # 1000000000)) then
    match fuel with
    | O => None
    | S fuel' =>
        let '(h', ns) := step fn update_fns e beat_seconds dt vars_local t h in
        simulate fuel' fn update_fns e beat_seconds dt vars_local (t + dt) h'
          (notes ++ ns)
    end
  else Some (h, notes).

(** Lines 163-325: one iteration of [for i, e in enumerate(equations)];
    [pm] is [pm.instruments]. *)
Definition render_equation (fuel : nat) (beat_seconds : Q) (e : Equation)
    (h : heap) (pm : list Instrument) : heap * list Instrument * outcome :=
  let vars_ :=
    match vars e with
    | Some l => load h l
    | None => {[ "x" := 0; "y" := 0; "z" := 0 ]}
    end in
  let start_t := fst (active_window e) in
  let dt := step_dt beat_seconds (eval_rate e) in
  match Parser.parse_expr (expr e) with
  | inl err => (h, pm, Raised (ParseError err))
  | inr (fn, _) =>
      let update_fns := prepare_updates (updates e) in
      let instr_name :=
        Py.lower (match instrument (mapping e) with
                  | EmptyString => "piano" | s => s end) in
      let program := if decide (instr_name = "piano") then 0%Z else 80%Z in
      let '(h0, vars_local) := alloc h vars_ in
      match simulate fuel fn update_fns e beat_seconds dt vars_local start_t h0 [] with
      | Some (h1, notes) =>
          (h1, pm ++ [Build_Instrument program (name e) notes], Returned)
      | None => (h0, pm, Diverged)
      end
  end.

Fixpoint render_equations (fuel : nat) (beat_seconds : Q) (equations : list Equation)
    (h : heap) (pm : list Instrument) : heap * list Instrument * outcome :=
  match equations with
  | [] => (h, pm, Returned)
  | e :: rest =>
      match render_equation fuel beat_seconds e h pm with
      | (h', pm', Returned) => render_equations fuel beat_seconds rest h' pm'
      | stopped => stopped
      end
  end.

(** [render_config] up to [pm.write]: the store, the instruments built
    and how the run ended. The instruments are written to the MIDI file
    only when the outcome is [Returned]. *)
Definition render_config (fuel : nat) (config : Config) (h : heap)
  : heap * list Instrument * outcome :=
  if Qeq_bool (tempo config) 0 then (h, [], Raised ZeroDivisionError)
  else render_equations fuel (beat_seconds (tempo config)) (equations config) h [].

End WithEvaluator.

End Engine.

(* ===================================================================== *)
(** ** A small evaluator and sample configurations *)
(* ===================================================================== *)

(** An instance of [Evaluator] on the few expressions used in the
    examples below; on these texts it answers as [sympy] does. *)
Module Sample.
Import Engine.
Local Open Scope Q_scope.

Inductive sexpr :=
| Sym (s : string)
| Num (q : Q)
| Add (a b : sexpr).

Fixpoint symbols (e : sexpr) : gset string :=
  match e with
  | Sym s => {[ s ]}
  | Num _ => ∅
  | Add a b => symbols a ∪ symbols b
  end.

(** Calling the lambdified function: a symbol that is not an argument is
    an undefined name. *)
Fixpoint eval (env : string -> option Q) (e : sexpr) : option Q :=
  match e with
  | Sym s => env s
  | Num q => Some q
  | Add a b =>
      match eval env a, eval env b with
      | Some u, Some v => Some (u + v)
      | _, _ => None
      end
  end.

Definition env3 (x y z : Q) (s : string) : option Q :=
  if decide (s = "x") then Some x
  else if decide (s = "y") then Some y
  else if decide (s = "z") then Some z
  else None.

Definition env4 (x y z t : Q) (s : string) : option Q :=
  if decide (s = "t") then Some t else env3 x y z s.

(** ["("] is a syntax error; texts outside the table are not used. *)
Definition parse (text : string) : option sexpr :=
  if decide (text = "x") then Some (Sym "x")
  else if decide (text = "w") then Some (Sym "w")
  else if decide (text = "x + 1") then Some (Add (Sym "x") (Num 1))
  else None.

(** A rational stand-in for [tanh] with values in (-1, 1). *)
Definition squash (v : Q) : Q := v / (1 + Qabs v).

Definition call3 (e : sexpr) : fn3 := fun x y z => eval (env3 x y z) e.
Definition call4 (e : sexpr) : fn4 := fun x y z t => eval (env4 x y z t) e.

#[export] Instance evaluator : Evaluator := {|
  Expr := sexpr;
  sympify := parse;
  free_symbols := symbols;
  lambdify3 := call3;
  lambdify4 := call4;
  tanh := squash
|}.

Definition sample_mapping : Mapping := {|
  base_midi := 60;
  scale := "a_minor";
  octave_range := 2;
  polyphony := 1;
  rhythm_quant := 1 # 16;
  velocity_curve := "linear";
  instrument := "piano"
|}.

(** Two voices on middle C. *)
Definition duet_mapping : Mapping := {|
  base_midi := 60;
  scale := "a_minor";
  octave_range := 2;
  polyphony := 2;
  rhythm_quant := 1 # 16;
  velocity_curve := "linear";
  instrument := "piano"
|}.

(** Two voices on top of a high base note. *)
Definition chord_mapping : Mapping := {|
  base_midi := 120;
  scale := "a_minor";
  octave_range := 2;
  polyphony := 2;
  rhythm_quant := 1 # 16;
  velocity_curve := "linear";
  instrument := "piano"
|}.

(** An equation over the caller's dictionary at reference 0, evaluated
    four times a beat during one second. *)
Definition sample_equation (expr : string) (updates : list string) : Equation := {|
  name := "lead";
  expr := expr;
  vars := Some 0%nat;
  updates := updates;
  eval_rate := 1 # 4;
  active_window := (0, 1);
  mapping := sample_mapping;
  limits := []
|}.

(** The caller's store: one dictionary [{'x': 0.0, 'y': 0.0, 'z': 0.0}]. *)
Definition sample_heap : heap := [ {[ "x" := 0; "y" := 0; "z" := 0 ]} ].

End Sample.

(* ===================================================================== *)
(** ** Further notions about the scheduler *)
(* ===================================================================== *)

Module RunnerAux.
Import Runner.

Section Scheduler.
Context {Equation : Type} `{EqDecision Equation}.

(** The timers of [eqs] fire one after the other. *)
Definition finish_all (s : sched Equation) (eqs : list Equation) : sched Equation :=
  fold_left (fun s eq => _finish eq s) eqs s.

(** Each timer that fires belongs to an equation that is active at that
    moment. *)
Fixpoint fires_active (s : sched Equation) (eqs : list Equation) : Prop :=
  match eqs with
  | [] => True
  | eq :: rest => eq ∈ _active s /\ fires_active (_finish eq s) rest
  end.

End Scheduler.
End RunnerAux.

(* ===================================================================== *)
(** ** Further notions about the engine *)
(* ===================================================================== *)

Module EngineAux.
Import Engine.
Local Open Scope Q_scope.


(** The notes come in non-decreasing order of [start]. *)
Definition starts_sorted (ns : list Note) : Prop :=
  forall i j n n',
    ns !! i = Some n -> ns !! j = Some n' -> (i <= j)%nat -> start n <= start n'.

(** The program number given to the instrument of an equation (lines
    244-245). *)
Definition program_of (m : Mapping) : Z :=
  let instr_name :=
    Py.lower (match instrument m with EmptyString => "piano" | s => s end) in
  if decide (instr_name = "piano") then 0%Z else 80%Z.


Section WithEvaluator.
Context `{Evaluator}.


(** How [runner.run] ends (lines 275-363): with an exit code, with an
    exception that leaves it, or not at all. *)
Inductive run_result :=
| Exit (code : Z)
| Uncaught (exc : exception)
| StillRunning.

(** [runner.run]. The tempo is used at lines 318 and 344, outside any
    [try]; the call of [render_config] is inside one (lines 353-360).
    [tail_ok] tells whether what [render_config] does after its loops
    (writing the MIDI file, the sheet and the audio) raises nothing; saving
    the configuration never makes [run] fail (lines 299-306). *)
Definition run (fuel : nat) (tail_ok : bool) (config : Config) (h : heap)
  : run_result :=
  if Qeq_bool (tempo config) 0 then Uncaught ZeroDivisionError
  else
    match render_config fuel config h with
    | (_, _, Returned) => if tail_ok then Exit 0 else Exit 5
    | (_, _, Raised _) => Exit 5
    | (_, _, Diverged) => StillRunning
    end.

End WithEvaluator.

End EngineAux.

(* ===================================================================== *)
(** ** Text input: update rules typed by the user *)
(* ===================================================================== *)

Module Intake.

(** [s.split(c)] for a one-character separator [c]: all the pieces. *)
Fixpoint split (c : ascii) (s : string) : list string :=
  match s with
  | EmptyString => [EmptyString]
  | String a s' =>
      if decide (a = c) then EmptyString :: split c s'
      else
        match split c s' with
        | p :: ps => String a p :: ps
        | [] => [String a EmptyString]
        end
  end.

(** [runner.interactive], line 169: the rules typed at the prompt. *)
Definition runner_updates (updates_raw : string) : list string :=
  match updates_raw with
  | EmptyString => []
  | _ =>
      filter (fun u => u <> EmptyString) (Py.strip <$> split ";" updates_raw)
  end.

(** [EquationBuilder.add_equation], line 156 of [ui_helpers.py]: the
    rules typed in the form. *)
Definition gui_updates (value : string) : list string :=
  match value with
  | EmptyString => []
  | _ => Py.strip <$> split ";" value
  end.

End Intake.

(* ===================================================================== *)
(** ** mods/utau_exporter.py *)
(* ===================================================================== *)

Module Utau.
Local Open Scope Q_scope.

(** [s.split()]: the words between runs of whitespace. *)
Fixpoint split_ws (s : string) : list string :=
  match s with
  | EmptyString => []
  | String a s' =>
      if Py.is_space a then split_ws s'
      else
        match s' with
        | EmptyString => [String a EmptyString]
        | String b _ =>
            if Py.is_space b then String a EmptyString :: split_ws s'
            else
              match split_ws s' with
              | w :: ws => String a w :: ws
              | [] => [String a EmptyString]
              end
        end
  end.

(** The characters of a string, as [for phoneme in word] visits them. *)
Fixpoint chars (s : string) : list ascii :=
  match s with
  | EmptyString => []
  | String a s' => a :: chars s'
  end.

(** [midi_note_to_utau_pitch]. *)
Definition midi_note_to_utau_pitch (midi_note : Z) : string :=
  pretty (midi_note - 12)%Z.

Definition phoneme_map : gmap string (list string) :=
  list_to_map [
    ("a", ["a"]); ("e", ["e"]); ("i", ["i"]); ("o", ["o"]); ("u", ["u"]);
    ("ka", ["k"; "a"]); ("ke", ["k"; "e"]); ("ki", ["k"; "i"]);
    ("ko", ["k"; "o"]); ("ku", ["k"; "u"]);
    ("sa", ["s"; "a"]); ("se", ["s"; "e"]); ("si", ["s"; "i"]);
    ("so", ["s"; "o"]); ("su", ["s"; "u"]);
    ("ta", ["t"; "a"]); ("te", ["t"; "e"]); ("ti", ["t"; "i"]);
    ("to", ["t"; "o"]); ("tu", ["t"; "u"]);
    ("na", ["n"; "a"]); ("ne", ["n"; "e"]); ("ni", ["n"; "i"]);
    ("no", ["n"; "o"]); ("nu", ["n"; "u"]);
    ("ha", ["h"; "a"]); ("he", ["h"; "e"]); ("hi", ["h"; "i"]);
    ("ho", ["h"; "o"]); ("hu", ["h"; "u"]);
    ("ma", ["m"; "a"]); ("me", ["m"; "e"]); ("mi", ["m"; "i"]);
    ("mo", ["m"; "o"]); ("mu", ["m"; "u"]);
    ("ra", ["r"; "a"]); ("re", ["r"; "e"]); ("ri", ["r"; "i"]);
    ("ro", ["r"; "o"]); ("ru", ["r"; "u"])
  ].

(** A note handed to [generate_ust]: [note['pitch']], [note['duration']]
    and the optional [note['lyric']]. *)
Record MidiNote := {
  midi_pitch : Z;
  midi_duration : Q;
  midi_lyric : option string
}.

(** [format(i, '04d')] for an index that is not negative: at least four
    digits, padded with zeros on the left. *)
Fixpoint zeros (n : nat) (s : string) : string :=
  match n with
  | O => s
  | S n' => String "0" (zeros n' s)
  end.

Definition fmt04d (i : nat) : string :=
  zeros (4 - String.length (pretty i)) (pretty i).

(** Lines 54-68; [tempo_text] is [str(self.tempo)]. *)
Definition ust_header (tempo_text project_name : string) : list string :=
  [ "[#SETTING]";
    "Tempo=" +:+ tempo_text;
    "Tracks=1";
    "ProjectName=" +:+ project_name;
    "VoiceDir=%VOICE%Teto_English\";
    "CacheDir=%VOICE%Teto_English\cache\";
    "Mode2=True";
    "";
    "[#0000]";
    "Length=480";
    "Lyric=R";
    "NoteNum=60";
    "" ].

(** Lines 72-79: the section of the note with index [i]. *)
Definition ust_note (i : nat) (note : MidiNote) : list string :=
  [ "[#" +:+ fmt04d i +:+ "]";
    "Length=" +:+ pretty (Py.int (midi_duration note * 480));
    "Lyric=" +:+ default "a" (midi_lyric note);
    "NoteNum=" +:+ midi_note_to_utau_pitch (midi_pitch note);
    "Flags=B50";
    "" ].

(** Lines 71-79: [for i, note in enumerate(midi_notes, 1)], from index
    [i] on. *)
Fixpoint ust_notes (i : nat) (midi_notes : list MidiNote) : list string :=
  match midi_notes with
  | [] => []
  | note :: rest => ust_note i note ++ ust_notes (S i) rest
  end.

(** Lines 82-88. *)
Definition ust_end (n : nat) : list string :=
  [ "[#" +:+ fmt04d (n + 1) +:+ "]"; "Length=480"; "Lyric=R"; "NoteNum=60"; "" ].

(** [generate_ust]: the lines joined and written to the file. The
    argument [lyrics] is accepted and not used. *)
Definition generate_ust (tempo_text project_name : string)
    (midi_notes : list MidiNote) (lyrics : string) : list string :=
  ust_header tempo_text project_name
  ++ ust_notes 1 midi_notes
  ++ ust_end (List.length midi_notes).

(** One dictionary appended to [notes] by [text_to_lyrics]. *)
Record LyricNote := {
  lyric : string;
  length : Z;
  note_num : Z;
  flags : string
}.

(** [text_to_lyrics]. *)
Definition text_to_lyrics (text : string) (note_duration : Q) : list LyricNote :=
  let words := split_ws (Py.lower text) in
  word ← words;
  phoneme ← chars word;
  match phoneme_map !! String phoneme EmptyString with
  | Some _ =>
      [ {| lyric := String phoneme EmptyString;
           length := Py.int (note_duration * 480);
           note_num := 60;
           flags := "B50" |} ]
  | None => []
  end.

(** The five letters that [text_to_lyrics] turns into notes. *)
Definition is_vowel (c : ascii) : bool :=
  bool_decide (c ∈ ["a"; "e"; "i"; "o"; "u"]%char).

End Utau.

(* ===================================================================== *)
(** ** Properties of the scheduler *)
(* ===================================================================== *)

Module RunnerFacts.
Import Runner.

Section SchedulerFacts.
Context {Equation : Type} `{EqDecision Equation}.
Implicit Types (s : sched Equation) (o : op Equation) (ops : list (op Equation)).
Implicit Types (x eq : Equation) (l a : list Equation).

Lemma list_remove_length x l a :
  list_remove x l = Some a -> length l = S (length a).
Proof.
  revert a. induction l as [|y l IH]; intros a; simpl; [discriminate|].
  destruct (decide (y = x)) as [->|Hne].
  - intros [= ->]. reflexivity.
  - destruct (list_remove x l) as [a'|] eqn:E; simpl; [|discriminate].
    intros [= <-]. simpl. f_equal. apply IH. reflexivity.
Qed.

Lemma list_remove_elem x l : x ∈ l -> is_Some (list_remove x l).
Proof.
  induction l as [|y l IH]; intros Hin.
  - inversion Hin.
  - simpl. destruct (decide (y = x)) as [->|Hne]; [eauto|].
    apply elem_of_cons in Hin as [->|Hin]; [congruence|].
    destruct (IH Hin) as [a ->]. simpl. eauto.
Qed.

Lemma submit_inv eq s : full_or_idle s -> full_or_idle (_maybe_start_or_queue eq s).
Proof.
  intros [Hle Hq]. unfold _maybe_start_or_queue, full_or_idle.
  destruct (decide (length (_active s) < 3)%nat) as [Hlt|Hge]; simpl.
  - rewrite length_app. simpl. split; [lia|].
    intros Hne. specialize (Hq Hne). lia.
  - split; [lia|]. intros _. lia.
Qed.

Lemma finish_inv eq s : full_or_idle s -> full_or_idle (_finish eq s).
Proof.
  intros [Hle Hq]. unfold _finish, full_or_idle.
  destruct (list_remove eq (_active s)) as [a|] eqn:Hrm; simpl.
  - apply list_remove_length in Hrm.
    destruct (_queue s) as [|n rest] eqn:Eq; simpl.
    + split; [lia|]. congruence.
    + assert (length (_active s) = 3%nat) as H3 by (apply Hq; congruence).
      destruct (decide (length a < 3)%nat); [|lia]. simpl.
      rewrite length_app. simpl. split; lia.
  - destruct (_queue s) as [|n rest] eqn:Eq; simpl.
    + split; [lia|]. congruence.
    + assert (length (_active s) = 3%nat) as H3 by (apply Hq; congruence).
      destruct (decide (length (_active s) < 3)%nat); [lia|].
      split; [lia|]. intros _. exact H3.
Qed.

Lemma run_snoc ops o : run (ops ++ [o]) = exec (run ops) o.
Proof. unfold run. rewrite fold_left_app. reflexivity. Qed.

Lemma run_inv ops : full_or_idle (run ops).
Proof.
  induction ops as [|o ops IH] using rev_ind.
  - split; simpl; [lia|congruence].
  - rewrite run_snoc. destruct o; simpl; [apply submit_inv|apply finish_inv]; exact IH.
Qed.

Lemma submitted_snoc ops o :
  submitted (ops ++ [o]) =
  submitted ops ++ match o with Submit eq => [eq] | Complete _ => [] end.
Proof. unfold submitted. rewrite omap_app. destruct o; reflexivity. Qed.

Lemma exec_log s o :
  full_or_idle s ->
  started (exec s o) ++ _queue (exec s o) =
  (started s ++ _queue s) ++ match o with Submit eq => [eq] | Complete _ => [] end.
Proof.
  intros [Hle Hq]. destruct o as [eq|eq]; simpl.
  - unfold _maybe_start_or_queue.
    destruct (decide (length (_active s) < 3)%nat) as [Hlt|Hge]; simpl.
    + destruct (_queue s) as [|n rest] eqn:Eq.
      * rewrite !app_nil_r. reflexivity.
      * assert (length (_active s) = 3%nat) by (apply Hq; congruence). lia.
    + rewrite app_assoc. reflexivity.
  - rewrite app_nil_r. unfold _finish.
    destruct (list_remove eq (_active s)) as [a|] eqn:Hrm; simpl;
      destruct (_queue s) as [|n rest] eqn:Eq; simpl;
      repeat case_decide; simpl; rewrite ?Eq, <- ?app_assoc; reflexivity.
Qed.

Lemma run_log ops : started (run ops) ++ _queue (run ops) = submitted ops.
Proof.
  induction ops as [|o ops IH] using rev_ind; [reflexivity|].
  rewrite run_snoc, submitted_snoc, exec_log by apply run_inv.
  rewrite IH. reflexivity.
Qed.

(** C5: with submit ([_maybe_start_or_queue]) and onComplete ([_finish]) as
    atomic steps from the empty state, the active list of every reachable
    state holds at most 3 equations; submit starts the equation exactly
    when fewer than 3 are active and otherwise appends it to the tail of
    the queue. *)
Theorem active_set_bounded ops :
  (length (_active (run ops)) <= 3)%nat /\
  forall eq,
    _maybe_start_or_queue eq (run ops) =
    if decide (length (_active (run ops)) < 3)%nat
    then Sched (_active (run ops) ++ [eq]) (_queue (run ops)) (started (run ops) ++ [eq])
    else Sched (_active (run ops)) (_queue (run ops) ++ [eq]) (started (run ops)).
Proof.
  split; [apply run_inv|]. intros eq. reflexivity.
Qed.


End SchedulerFacts.

(** The scenario of the specification: A, B, C, D submitted, A finishes
    first, D is admitted. *)
Example four_submissions :
  run [Submit "A"; Submit "B"; Submit "C"; Submit "D"; Complete "A"] =
  Sched ["B"; "C"; "D"] [] ["A"; "B"; "C"; "D"].
Proof. reflexivity. Qed.


End RunnerFacts.

(* ===================================================================== *)
(** ** Properties of the Python built-ins *)
(* ===================================================================== *)

Module PyFacts.
Local Open Scope Q_scope.

Example int_truncates :
  Py.int (-7 # 2) = (-3)%Z /\ Py.int (7 # 2) = 3%Z.
Proof. split; reflexivity. Qed.

Example round_half_even :
  Py.round (5 # 2) = 2%Z /\ Py.round (7 # 2) = 4%Z /\
  Py.round (-5 # 2) = (-2)%Z /\ Py.round (13 # 5) = 3%Z.
Proof. repeat split; reflexivity. Qed.

Example split_and_strip :
  Py.split1 "=" "x = x + 1" = ("x ", Some " x + 1") /\
  Py.strip " x " = "x" /\ Py.strip " x + 1" = "x + 1" /\
  Py.replace "-" "_" (Py.lower "A-Minor") = "a_minor".
Proof. repeat split; reflexivity. Qed.

Lemma Qle_bool_false a b : Qle_bool a b = false <-> b < a.
Proof.
  split; intros Hab.
  - apply Qnot_le_lt. intros Hle. apply Qle_bool_iff in Hle. congruence.
  - destruct (Qle_bool a b) eqn:E; [|reflexivity].
    apply Qle_bool_iff in E. lra.
Qed.

(** On a non-negative float [int] is the floor. *)
Lemma int_floor q : 0 <= q -> Py.int q = Qfloor q.
Proof.
  destruct q as [n d]. unfold Qle, Py.int, Qfloor. simpl. intros Hn.
  apply Z.quot_div_nonneg; lia.
Qed.

(** On a negative float [int] is not positive. *)
Lemma int_nonpos q : q <= 0 -> (Py.int q <= 0)%Z.
Proof.
  destruct q as [n d]. unfold Qle, Py.int. simpl. intros Hn.
  assert (n <= 0)%Z as Hn' by lia.
  rewrite <- (Z.opp_involutive n), Z.quot_opp_l by lia.
  assert (0 <= Z.quot (- n) (Z.pos d))%Z; [|lia].
  apply Z.quot_pos; lia.
Qed.

Lemma floor_neg q : q < 0 -> (Qfloor q < 0)%Z.
Proof.
  intros Hq. pose proof (Qfloor_le q) as Hf.
  assert (inject_Z (Qfloor q) < inject_Z 0) as Hlt
    by (apply Qle_lt_trans with q; [exact Hf|exact Hq]).
  rewrite <- Zlt_Qlt in Hlt. exact Hlt.
Qed.

(** Clamping hides the difference between truncation and floor. *)
Lemma clamp_int_floor (m : Z) q :
  (0 <= m)%Z ->
  Z.max 0 (Z.min m (Py.int q)) = Z.max 0 (Z.min m (Qfloor q)).
Proof.
  intros Hm. destruct (Qlt_le_dec q 0) as [Hneg|Hpos].
  - pose proof (int_nonpos q ltac:(lra)). pose proof (floor_neg q Hneg). lia.
  - rewrite int_floor by exact Hpos. reflexivity.
Qed.



End PyFacts.

(* ===================================================================== *)
(** ** Properties of the scale mapper *)
(* ===================================================================== *)

Module ScaleFacts.
Import Engine PyFacts.
Local Open Scope Z_scope.

Lemma increasing_from_nth lo sd :
  increasing_from lo sd = true ->
  (forall i, (i < length sd)%nat -> lo < nth i sd 0 <= 11) /\
  (forall i j, (i < j < length sd)%nat -> nth i sd 0 < nth j sd 0).
Proof.
  revert lo. induction sd as [|x sd IH]; intros lo Hinc; simpl in *.
  - split; intros; lia.
  - apply andb_prop in Hinc as [Hx Hrest]. apply andb_prop in Hx as [Hlo Hhi].
    apply Z.ltb_lt in Hlo. apply Z.leb_le in Hhi.
    destruct (IH x Hrest) as [Hbound Hsorted]. split.
    + intros [|i] Hi; [lia|]. specialize (Hbound i ltac:(lia)). lia.
    + intros [|i] [|j] Hij; try lia.
      * specialize (Hbound j ltac:(lia)). lia.
      * apply Hsorted. lia.
Qed.

Lemma scale_ok_nth sd :
  scale_ok sd = true ->
  (0 < length sd)%nat /\
  (forall i, (i < length sd)%nat -> 0 <= nth i sd 0 <= 11) /\
  (forall i j, (i < j < length sd)%nat -> nth i sd 0 < nth j sd 0).
Proof.
  destruct sd as [|x sd]; [discriminate|]. simpl. intros Hok.
  apply andb_prop in Hok as [Hx Hrest]. apply andb_prop in Hx as [Hlo Hhi].
  apply Z.leb_le in Hlo. apply Z.leb_le in Hhi.
  destruct (increasing_from_nth x sd Hrest) as [Hbound Hsorted].
  split; [lia|]. split.
  - intros [|i] Hi; [lia|]. specialize (Hbound i ltac:(lia)). lia.
  - intros [|i] [|j] Hij; try lia.
    + specialize (Hbound j ltac:(lia)). lia.
    + apply Hsorted. lia.
Qed.

(** Every entry of the table, and the fallback, is well formed. *)
Lemma get_scale_degrees_ok name : scale_ok (_get_scale_degrees name) = true.
Proof.
  unfold _get_scale_degrees.
  destruct (scales !! _) as [sd|] eqn:Hlook; simpl; [|reflexivity].
  unfold scales in Hlook. apply elem_of_list_to_map_2 in Hlook.
  repeat (apply elem_of_cons in Hlook as [Hlook|Hlook];
          [injection Hlook as _ ->; reflexivity|]).
  inversion Hlook.
Qed.

Lemma total_steps_pos sd octaves :
  (0 < length sd)%nat -> 0 < total_steps sd octaves.
Proof.
  intros Hlen. unfold total_steps.
  destruct (Z.leb_spec (Z.of_nat (length sd) * octaves) 0); lia.
Qed.

Lemma deg_index_range sd octaves v_scaled :
  (0 < length sd)%nat ->
  0 <= deg_index sd octaves v_scaled <= total_steps sd octaves - 1.
Proof.
  intros Hlen. pose proof (total_steps_pos sd octaves Hlen).
  unfold deg_index. lia.
Qed.

Lemma voice_pitch_range base_midi sd deg_index p :
  0 <= voice_pitch base_midi sd deg_index p <= 127.
Proof. unfold voice_pitch. lia. Qed.

Lemma chosen_range base_midi sd poly deg_index :
  Forall (fun pitch => 0 <= pitch <= 127) (chosen base_midi sd poly deg_index).
Proof.
  unfold chosen. apply Forall_fmap, Forall_forall. intros p _. simpl.
  apply voice_pitch_range.
Qed.

Lemma voice_pitch_raw base_midi sd deg_index p :
  voice_pitch base_midi sd deg_index p =
  Z.max 0 (Z.min 127 (raw_pitch base_midi sd (deg_index + p))).
Proof. reflexivity. Qed.

(** Higher scale degrees give strictly higher pitches. *)
Lemma raw_pitch_increasing base_midi sd d d' :
  scale_ok sd = true -> 0 <= d < d' ->
  raw_pitch base_midi sd d < raw_pitch base_midi sd d'.
Proof.
  intros Hok Hd. destruct (scale_ok_nth sd Hok) as (Hlen & Hbound & Hsorted).
  unfold raw_pitch. set (n := Z.of_nat (length sd)).
  assert (0 < n) as Hn by (subst n; lia).
  pose proof (Z.mod_pos_bound d n Hn) as Hr.
  pose proof (Z.mod_pos_bound d' n Hn) as Hr'.
  pose proof (Z.div_mod d n ltac:(lia)) as Hdm.
  pose proof (Z.div_mod d' n ltac:(lia)) as Hdm'.
  pose proof (Hbound (Z.to_nat (d mod n)) ltac:(subst n; lia)) as Hb.
  pose proof (Hbound (Z.to_nat (d' mod n)) ltac:(subst n; lia)) as Hb'.
  assert (d / n <= d' / n) as Hq by (apply Z.div_le_mono; lia).
  destruct (Z.eq_dec (d / n) (d' / n)) as [Heq|Hne].
  - assert (d mod n < d' mod n) as Hlt by (rewrite Heq in Hdm; lia).
    pose proof (Hsorted (Z.to_nat (d mod n)) (Z.to_nat (d' mod n))
                  ltac:(subst n; lia)).
    lia.
  - lia.
Qed.

End ScaleFacts.

(* ===================================================================== *)
(** ** Properties of one step *)
(* ===================================================================== *)

Module StepFacts.
Import Engine PyFacts ScaleFacts.
Local Open Scope Q_scope.

Lemma clamp_max_min x : Py.max 1 (Py.min 127 x) == clamp x 1 127.
Proof.
  unfold Py.max, Py.min, clamp.
  destruct (Qle_bool 127 x) eqn:E1.
  - apply Qle_bool_iff in E1.
    destruct (Qlt_le_dec x 1) as [?|?]; [lra|].
    destruct (Qlt_le_dec 127 x) as [?|?]; simpl; lra.
  - apply Qle_bool_false in E1.
    destruct (Qle_bool x 1) eqn:E2.
    + apply Qle_bool_iff in E2.
      destruct (Qlt_le_dec x 1) as [?|?]; [reflexivity|].
      destruct (Qlt_le_dec 127 x) as [?|?]; lra.
    + apply Qle_bool_false in E2.
      destruct (Qlt_le_dec x 1) as [?|?]; [lra|].
      destruct (Qlt_le_dec 127 x) as [?|?]; [lra|reflexivity].
Qed.

Lemma clamp_range x : 1 <= clamp x 1 127 <= 127.
Proof.
  unfold clamp. destruct (Qlt_le_dec x 1); [lra|].
  destruct (Qlt_le_dec 127 x); lra.
Qed.

Lemma int_clamp x : Py.int (Py.max 1 (Py.min 127 x)) = Qfloor (clamp x 1 127).
Proof.
  pose proof (clamp_max_min x) as Heq. pose proof (clamp_range x) as Hr.
  rewrite int_floor by (rewrite Heq; lra).
  rewrite Heq. reflexivity.
Qed.

Lemma floor_clamp_range x : (1 <= Qfloor (clamp x 1 127) <= 127)%Z.
Proof.
  pose proof (clamp_range x) as [Hlo Hhi]. split.
  - change 1%Z with (Qfloor 1). apply Qfloor_resp_le. exact Hlo.
  - change 127%Z with (Qfloor 127). apply Qfloor_resp_le. exact Hhi.
Qed.

Section WithEvaluator.
Context `{Evaluator}.

(** The normalised value of a step whose raw value is [v]. *)
Lemma step_notes_unfold m beat_seconds dt end_t v t :
  step_notes m beat_seconds dt end_t v t =
  let v_scaled := (tanh v + 1) / 2 in
  let sd := _get_scale_degrees
              (match scale m with EmptyString => "a_minor" | s => s end) in
  let iv := note_interval t dt end_t (rhythm_quant m) beat_seconds in
  (fun pitch => Build_Note (vel (velocity_curve m) v_scaled) pitch (fst iv) (snd iv))
    <$> chosen (base_midi m) sd (polyphony m) (deg_index sd (octave_range m) v_scaled).
Proof.
  unfold step_notes. simpl. destruct (note_interval _ _ _ _ _). reflexivity.
Qed.

(** C7: for every normalised value (in particular every [v_scaled] in
    [0,1]) and every mapping, whatever its scale name, octave range and
    polyphony: [total_steps] is the product of the number of scale degrees
    and the octave range, or the number of scale degrees when that product
    is not positive; [deg_index] is the floor of [v_scaled * total_steps]
    clamped into [0, total_steps - 1]; and every pitch chosen, hence every
    pitch emitted by a step, lies in [0, 127]. *)
Theorem scale_mapping_in_range (m : Mapping) (name : string) (v_scaled : Q) :
  let sd := _get_scale_degrees name in
  let len := Z.of_nat (length sd) in
  let ts := total_steps sd (octave_range m) in
  let di := deg_index sd (octave_range m) v_scaled in
  ts = (if (len * octave_range m <=? 0)%Z then len else (len * octave_range m)%Z) /\
  di = Z.max 0 (Z.min (ts - 1) (Qfloor (v_scaled * inject_Z ts))) /\
  (0 <= di <= ts - 1)%Z /\
  Forall (fun pitch => (0 <= pitch <= 127)%Z)
    (chosen (base_midi m) sd (polyphony m) di) /\
  forall beat_seconds dt end_t v t,
    Forall (fun n => (0 <= pitch n <= 127)%Z)
      (step_notes m beat_seconds dt end_t v t).
Proof.
  intros sd len ts di.
  destruct (scale_ok_nth sd (get_scale_degrees_ok name)) as (Hlen & _ & _).
  pose proof (total_steps_pos sd (octave_range m) Hlen) as Hts.
  split; [reflexivity|]. split.
  { subst di. unfold deg_index. apply clamp_int_floor. fold ts. lia. }
  split; [apply deg_index_range; exact Hlen|].
  split; [apply chosen_range|].
  intros beat_seconds dt end_t v t. rewrite step_notes_unfold. simpl.
  apply Forall_fmap. eapply Forall_impl; [apply chosen_range|].
  intros p Hp. exact Hp.
Qed.

(** C4 (amended): the velocity of a step is the integer part of
    [clamp(1 + v_scaled^2 * 126, 1, 127)] when the mapping's velocity
    curve is the string 'exp', and the integer part of
    [clamp(1 + v_scaled * 126, 1, 127)] for every other curve name, among
    them 'linear' and 'exponential'; it lies in [1, 127] and is the
    velocity of every note of the step. *)
Theorem velocity_curves (vel_curve : string) (v_scaled : Q) :
  vel vel_curve v_scaled =
    Qfloor (clamp (1 + (if decide (vel_curve = "exp")
                        then v_scaled ^ 2 else v_scaled) * 126) 1 127) /\
  vel "linear" v_scaled = Qfloor (clamp (1 + v_scaled * 126) 1 127) /\
  vel "exponential" v_scaled = Qfloor (clamp (1 + v_scaled * 126) 1 127) /\
  vel "exp" v_scaled = Qfloor (clamp (1 + v_scaled ^ 2 * 126) 1 127) /\
  (1 <= vel vel_curve v_scaled <= 127)%Z /\
  forall m beat_seconds dt end_t v t,
    Forall (fun n => velocity n = vel (velocity_curve m) ((tanh v + 1) / 2))
      (step_notes m beat_seconds dt end_t v t).
Proof.
  assert (forall c, vel c v_scaled =
    Qfloor (clamp (1 + (if decide (c = "exp")
                        then v_scaled ^ 2 else v_scaled) * 126) 1 127)) as Hvel.
  { intros c. unfold vel. destruct (decide (c = "exp")); apply int_clamp. }
  split; [apply Hvel|].
  split; [apply (Hvel "linear")|].
  split; [apply (Hvel "exponential")|].
  split; [apply (Hvel "exp")|].
  split; [rewrite Hvel; apply floor_clamp_range|].
  intros m beat_seconds dt end_t v t. rewrite step_notes_unfold. simpl.
  apply Forall_fmap, Forall_forall. intros p _. reflexivity.
Qed.

(** C9 (amended): a step of an equation with polyphony n >= 1 emits
    exactly n notes (and none when the polyphony is not positive); every
    one of them carries the start, the end and the velocity of the step;
    a later voice is never lower than an earlier one, and two voices have
    the same pitch only when both are clamped to the same end of the MIDI
    range, 0 or 127. *)
Theorem voices_of_a_step m beat_seconds dt end_t v t :
  let ns := step_notes m beat_seconds dt end_t v t in
  let iv := note_interval t dt end_t (rhythm_quant m) beat_seconds in
  length ns = Z.to_nat (polyphony m) /\
  ((1 <= polyphony m)%Z -> Z.of_nat (length ns) = polyphony m) /\
  Forall (fun n => start n = fst iv /\ end_ n = snd iv /\
                   velocity n = vel (velocity_curve m) ((tanh v + 1) / 2)) ns /\
  forall (i j : nat) (n n' : Note),
    ns !! i = Some n -> ns !! j = Some n' -> (i < j)%nat ->
    start n = start n' /\ end_ n = end_ n' /\ velocity n = velocity n' /\
    (pitch n <= pitch n')%Z /\
    ((pitch n < pitch n')%Z \/
     (pitch n = 0%Z /\ pitch n' = 0%Z) \/
     (pitch n = 127%Z /\ pitch n' = 127%Z)).
Proof.
  intros ns iv.
  assert (length ns = Z.to_nat (polyphony m)) as Hlen.
  { subst ns. rewrite step_notes_unfold. simpl. unfold chosen.
    rewrite !length_fmap, length_seqZ. reflexivity. }
  split; [exact Hlen|]. split; [rewrite Hlen; lia|]. split.
  { subst ns iv. rewrite step_notes_unfold. simpl.
    apply Forall_fmap, Forall_forall. intros p _. simpl.
    split; [reflexivity|]. split; reflexivity. }
  subst ns. rewrite step_notes_unfold. simpl.
  set (sd := _get_scale_degrees _). set (di := deg_index sd _ _).
  intros i j n n'. rewrite !list_lookup_fmap.
  unfold chosen. rewrite !list_lookup_fmap.
  intros Hi Hj Hij.
  destruct (seqZ 0 (polyphony m) !! i) as [p|] eqn:Ep; [|discriminate].
  destruct (seqZ 0 (polyphony m) !! j) as [p'|] eqn:Ep'; [|discriminate].
  apply lookup_seqZ in Ep as [-> _]. apply lookup_seqZ in Ep' as [-> _].
  simpl in Hi, Hj. injection Hi as <-. injection Hj as <-. simpl.
  do 3 (split; [reflexivity|]).
  rewrite !voice_pitch_raw.
  pose proof (deg_index_range sd (octave_range m) ((tanh v + 1) / 2)) as Hdi.
  destruct (scale_ok_nth sd (get_scale_degrees_ok _)) as (Hlen' & _ & _).
  specialize (Hdi Hlen'). fold di in Hdi.
  pose proof (raw_pitch_increasing (base_midi m) sd
                (di + (0 + Z.of_nat i)) (di + (0 + Z.of_nat j))
                (get_scale_degrees_ok _) ltac:(lia)).
  lia.
Qed.

End WithEvaluator.

Import Sample.

(** C4, counterexample: with the curve named 'exponential' the
    velocity at 1/2 is 64, the linear value, while every integer between
    the floor and the ceiling of [clamp(1 + (1/2)^2 * 126, 1, 127)] is 32
    or 33. *)
Lemma exponential_curve_is_linear :
  vel "exponential" (1 # 2) = 64%Z /\
  Qfloor (clamp (1 + (1 # 2) ^ 2 * 126) 1 127) = 32%Z /\
  Qceiling (clamp (1 + (1 # 2) ^ 2 * 126) 1 127) = 33%Z.
Proof. repeat split; reflexivity. Qed.

(** C9, counterexample: two voices above base note 120 are both
    clamped to 127. *)
Lemma clamped_voices_coincide :
  pitch <$> step_notes chord_mapping (1 # 2) (1 # 8) 1 0 0 = [127; 127]%Z /\
  ~ NoDup (pitch <$> step_notes chord_mapping (1 # 2) (1 # 8) 1 0 0).
Proof.
  assert (pitch <$> step_notes chord_mapping (1 # 2) (1 # 8) 1 0 0
          = [127; 127]%Z) as Heq by (vm_compute; reflexivity).
  split; [exact Heq|]. rewrite Heq. intros Hnd.
  apply NoDup_cons in Hnd as [Hnotin _]. apply Hnotin. constructor.
Qed.

(** One voice gives one note; two voices on middle C give C5 and D5 at
    the same time. *)
Lemma voices_of_a_step_witness :
  length (step_notes sample_mapping (1 # 2) (1 # 8) 1 0 0) = 1%nat /\
  Z.of_nat (length (step_notes duet_mapping (1 # 2) (1 # 8) 1 0 0)) = 2%Z /\
  0 # 32 = 0 # 32 /\ 4 # 32 = 4 # 32 /\ 64%Z = 64%Z /\ (72 <= 74)%Z /\
  ((72 < 74)%Z \/ (72%Z = 0%Z /\ 74%Z = 0%Z) \/ (72%Z = 127%Z /\ 74%Z = 127%Z)).
Proof.
  assert (step_notes duet_mapping (1 # 2) (1 # 8) 1 0 0 !! 0%nat =
          Some {| velocity := 64; pitch := 72; start := 0 # 32; end_ := 4 # 32 |})
    as Hfirst by (vm_compute; reflexivity).
  assert (step_notes duet_mapping (1 # 2) (1 # 8) 1 0 0 !! 1%nat =
          Some {| velocity := 64; pitch := 74; start := 0 # 32; end_ := 4 # 32 |})
    as Hsecond by (vm_compute; reflexivity).
  assert (1 <= polyphony duet_mapping)%Z as Hpoly by (simpl; lia).
  destruct (voices_of_a_step sample_mapping (1 # 2) (1 # 8) 1 0 0)
    as (Hone & _).
  destruct (voices_of_a_step duet_mapping (1 # 2) (1 # 8) 1 0 0)
    as (_ & Htwo & _ & Hpair).
  split; [exact Hone|]. split; [exact (Htwo Hpoly)|].
  exact (Hpair 0%nat 1%nat _ _ Hfirst Hsecond ltac:(lia)).
Defined.

End StepFacts.

(* ===================================================================== *)
(** ** Properties of the store *)
(* ===================================================================== *)

Module HeapFacts.
Import Engine.
Local Open Scope Q_scope.

Lemma dict_setitem_length h l k v : length (dict_setitem h l k v) = length h.
Proof. unfold dict_setitem. apply length_alter. Qed.

Lemma dict_setitem_other h l l' k v :
  l <> l' -> dict_setitem h l k v !! l' = h !! l'.
Proof. intros Hne. unfold dict_setitem. apply list_lookup_alter_ne. exact Hne. Qed.

Lemma load_setitem h l k v :
  (l < length h)%nat -> load (dict_setitem h l k v) l = <[k := v]> (load h l).
Proof.
  intros Hl. unfold load, dict_setitem. rewrite list_lookup_alter_eq.
  destruct (lookup_lt_is_Some_2 h l Hl) as [d ->]. reflexivity.
Qed.

Lemma dict_get_setitem_eq h l k v dflt :
  (l < length h)%nat -> dict_get (dict_setitem h l k v) l k dflt = v.
Proof.
  intros Hl. unfold dict_get. rewrite load_setitem by exact Hl.
  rewrite lookup_insert_eq. reflexivity.
Qed.

Lemma dict_get_setitem_ne h l k k' v dflt :
  k <> k' -> dict_get (dict_setitem h l k v) l k' dflt = dict_get h l k' dflt.
Proof.
  intros Hne. unfold dict_get, load, dict_setitem. rewrite list_lookup_alter_eq.
  destruct (h !! l) as [d|]; simpl; [|reflexivity].
  rewrite lookup_insert_ne by exact Hne. reflexivity.
Qed.

Lemma only_at_refl l h : only_at l h h.
Proof. split; [reflexivity|]. intros; reflexivity. Qed.

Lemma only_at_trans l h1 h2 h3 : only_at l h1 h2 -> only_at l h2 h3 -> only_at l h1 h3.
Proof.
  intros [Hlen1 H1] [Hlen2 H2]. split; [congruence|].
  intros l' Hne. rewrite H2, H1 by exact Hne. reflexivity.
Qed.

Lemma only_at_setitem l h k v : only_at l h (dict_setitem h l k v).
Proof.
  split; [apply dict_setitem_length|].
  intros l' Hne. apply dict_setitem_other. congruence.
Qed.

Lemma apply_update_only_at t l h rule : only_at l h (apply_update t l h rule).
Proof.
  destruct rule as [varname f_rhs]. simpl.
  destruct (f_rhs _ _ _ _); [apply only_at_setitem|apply only_at_refl].
Qed.

Lemma apply_updates_only_at fns t l h : only_at l h (apply_updates fns t l h).
Proof.
  unfold apply_updates. revert h.
  induction fns as [|rule fns IH]; intros h; simpl; [apply only_at_refl|].
  eapply only_at_trans; [apply apply_update_only_at|apply IH].
Qed.

Lemma apply_limit_only_at l h entry : only_at l h (apply_limit l h entry).
Proof.
  destruct entry as [varname lim]. simpl.
  destruct (lim !! 0%nat) as [[threshold|]|]; try apply only_at_refl.
  destruct (lim !! 1%nat) as [[reset_to|]|]; try apply only_at_refl.
  destruct (Qle_bool _ _); [apply only_at_setitem|apply only_at_refl].
Qed.

Lemma apply_limits_only_at lims l h : only_at l h (apply_limits lims l h).
Proof.
  unfold apply_limits. revert h.
  induction lims as [|entry lims IH]; intros h; simpl; [apply only_at_refl|].
  eapply only_at_trans; [apply apply_limit_only_at|apply IH].
Qed.

(** A store that differs from [h ++ [d]] only in the last dictionary
    still begins with [h]. *)
Lemma only_at_fresh h d h' :
  only_at (length h) (h ++ [d]) h' -> exists d', h' = h ++ [d'].
Proof.
  intros [Hlen Hsame]. rewrite length_app in Hlen. simpl in Hlen.
  destruct (lookup_lt_is_Some_2 h' (length h) ltac:(lia)) as [d' Hd'].
  exists d'. apply list_eq. intros i.
  destruct (decide (i = length h)) as [->|Hne].
  - rewrite Hd'. rewrite lookup_app_r by lia.
    replace (length h - length h)%nat with 0%nat by lia. reflexivity.
  - rewrite Hsame by exact Hne.
    destruct (decide (i < length h)%nat) as [Hlt|Hge].
    + rewrite !lookup_app_l by exact Hlt. reflexivity.
    + rewrite !lookup_ge_None_2; [reflexivity| |];
        rewrite length_app; simpl; lia.
Qed.

End HeapFacts.

(* ===================================================================== *)
(** ** Properties of the stepping loop *)
(* ===================================================================== *)

Module SequencerFacts.
Import Engine PyFacts HeapFacts.
Local Open Scope Q_scope.

(** *** Timing *)

Lemma step_dt_pos beat_seconds frac : 0 < beat_seconds -> 0 < step_dt beat_seconds frac.
Proof.
  intros Hbs. unfold step_dt.
  destruct (Qle_bool (beat_seconds * frac) 0) eqn:E.
  - apply Qmult_lt_0_compat; [exact Hbs|reflexivity].
  - apply Qle_bool_false in E. exact E.
Qed.

Lemma beat_seconds_pos tempo : 0 < tempo -> 0 < beat_seconds tempo.
Proof.
  intros Ht. unfold beat_seconds. apply Qlt_shift_div_l; [exact Ht|]. lra.
Qed.



Section WithEvaluator.
Context `{Evaluator}.





(** *** Update rules and limits *)

Lemma collect_updates_cons upd rest :
  collect_updates (upd :: rest) =
  match rule_sides upd with
  | None => collect_updates rest
  | Some (lhs, rhs) =>
      match sympify rhs with
      | Some expr_rhs => cons (lhs, lambdify4 expr_rhs) <$> collect_updates rest
      | None => None
      end
  end.
Proof.
  simpl. unfold rule_sides. destruct (Py.contains "=" upd); [|reflexivity].
  destruct (Py.split1 "=" upd) as [l r].
  destruct (decide (Py.strip l ∈ ["x"; "y"; "z"])); reflexivity.
Qed.

Lemma collect_updates_skip us1 bad us2 :
  rule_sides bad = None ->
  collect_updates (us1 ++ bad :: us2) = collect_updates (us1 ++ us2).
Proof.
  intros Hbad. induction us1 as [|upd us1 IH].
  - simpl app. rewrite collect_updates_cons, Hbad. reflexivity.
  - rewrite <- !app_comm_cons, !collect_updates_cons, IH. reflexivity.
Qed.

Lemma collect_updates_abort us1 bad us2 lhs rhs :
  rule_sides bad = Some (lhs, rhs) -> sympify rhs = None ->
  collect_updates (us1 ++ bad :: us2) = None.
Proof.
  intros Hbad Hsym. induction us1 as [|upd us1 IH].
  - simpl app. rewrite collect_updates_cons, Hbad, Hsym. reflexivity.
  - rewrite <- app_comm_cons, collect_updates_cons, IH.
    destruct (rule_sides upd) as [[l r]|]; [|reflexivity].
    destruct (sympify r); reflexivity.
Qed.

Lemma apply_updates_app fns1 fns2 t l h :
  apply_updates (fns1 ++ fns2) t l h = apply_updates fns2 t l (apply_updates fns1 t l h).
Proof. unfold apply_updates. apply fold_left_app. Qed.

Lemma apply_limits_app ls1 ls2 l h :
  apply_limits (ls1 ++ ls2) l h = apply_limits ls2 l (apply_limits ls1 l h).
Proof. unfold apply_limits. apply fold_left_app. Qed.

Lemma apply_updates_cons rule fns t l h :
  apply_updates (rule :: fns) t l h = apply_updates fns t l (apply_update t l h rule).
Proof. reflexivity. Qed.

Lemma apply_limits_cons entry ls l h :
  apply_limits (entry :: ls) l h = apply_limits ls l (apply_limit l h entry).
Proof. reflexivity. Qed.

Lemma apply_limit_malformed l h varname lim :
  limit_ok lim = false -> apply_limit l h (varname, lim) = h.
Proof.
  unfold limit_ok. simpl.
  destruct (lim !! 0%nat) as [[threshold|]|]; try reflexivity.
  destruct (lim !! 1%nat) as [[reset_to|]|]; try reflexivity.
  discriminate.
Qed.

Lemma apply_updates_length fns t l h : length (apply_updates fns t l h) = length h.
Proof. apply apply_updates_only_at. Qed.


(** C2 (amended): the rules of a step are applied one after the other in
    the order of the list, and each rule reads the variables as the
    rules before it have left them (together with [t]); it writes the one
    variable on its left side and no other. *)
Theorem updates_read_current_state (update_fns : list (string * fn4))
    (varname : string) (f_rhs : fn4) (t : Q) (vars_local : loc) (h : heap)
    (newval : Q) :
  (vars_local < length h)%nat ->
  f_rhs (dict_get (apply_updates update_fns t vars_local h) vars_local "x" 0)
        (dict_get (apply_updates update_fns t vars_local h) vars_local "y" 0)
        (dict_get (apply_updates update_fns t vars_local h) vars_local "z" 0) t
    = Some newval ->
  apply_updates (update_fns ++ [(varname, f_rhs)]) t vars_local h =
    dict_setitem (apply_updates update_fns t vars_local h) vars_local varname newval /\
  dict_get (apply_updates (update_fns ++ [(varname, f_rhs)]) t vars_local h)
    vars_local varname 0 = newval /\
  forall k, k <> varname ->
    dict_get (apply_updates (update_fns ++ [(varname, f_rhs)]) t vars_local h)
      vars_local k 0 =
    dict_get (apply_updates update_fns t vars_local h) vars_local k 0.
Proof.
  intros Hl Hrhs. rewrite apply_updates_app.
  assert (apply_updates [(varname, f_rhs)] t vars_local
            (apply_updates update_fns t vars_local h) =
          dict_setitem (apply_updates update_fns t vars_local h)
            vars_local varname newval) as Hlast.
  { rewrite apply_updates_cons. simpl apply_update. rewrite Hrhs. reflexivity. }
  rewrite Hlast. split; [reflexivity|]. split.
  - apply dict_get_setitem_eq. rewrite apply_updates_length. exact Hl.
  - intros k Hk. apply dict_get_setitem_ne. congruence.
Qed.

(** C1 (amended): a rule without '=' or with a left side other than x, y,
    z is dropped alone when the rules are prepared; a rule whose right
    side fails to parse makes the whole list of rules empty, so that no
    rule is applied at any step; a prepared rule whose evaluation fails
    at a step is skipped alone at that step; and a limit entry that
    cannot be read is skipped alone. *)
Theorem failing_rules_and_limits :
  (forall us1 bad us2,
     rule_sides bad = None ->
     prepare_updates (us1 ++ bad :: us2) = prepare_updates (us1 ++ us2)) /\
  (forall us1 bad us2 lhs rhs,
     rule_sides bad = Some (lhs, rhs) -> sympify rhs = None ->
     prepare_updates (us1 ++ bad :: us2) = [] /\
     forall t l h, apply_updates (prepare_updates (us1 ++ bad :: us2)) t l h = h) /\
  (forall fns1 varname (f_rhs : fn4) fns2 t l h,
     f_rhs (dict_get (apply_updates fns1 t l h) l "x" 0)
           (dict_get (apply_updates fns1 t l h) l "y" 0)
           (dict_get (apply_updates fns1 t l h) l "z" 0) t = None ->
     apply_updates (fns1 ++ (varname, f_rhs) :: fns2) t l h =
     apply_updates (fns1 ++ fns2) t l h) /\
  (forall ls1 varname lim ls2 l h,
     limit_ok lim = false ->
     apply_limits (ls1 ++ (varname, lim) :: ls2) l h = apply_limits (ls1 ++ ls2) l h).
Proof.
  split; [|split; [|split]].
  - intros us1 bad us2 Hbad. unfold prepare_updates.
    rewrite collect_updates_skip by exact Hbad. reflexivity.
  - intros us1 bad us2 lhs rhs Hbad Hsym. unfold prepare_updates.
    rewrite (collect_updates_abort us1 bad us2 lhs rhs Hbad Hsym).
    split; [reflexivity|]. intros t l h. reflexivity.
  - intros fns1 varname f_rhs fns2 t l h Hfail.
    rewrite !apply_updates_app, apply_updates_cons. simpl apply_update.
    rewrite Hfail. reflexivity.
  - intros ls1 varname lim ls2 l h Hbad.
    rewrite !apply_limits_app, apply_limits_cons.
    rewrite apply_limit_malformed by exact Hbad. reflexivity.
Qed.

End WithEvaluator.

Import Sample.

(** C1, counterexample: next to the rule ['y = ('], whose right side
    does not parse, the well-formed rule ['x = x + 1'] is not applied: a
    step leaves x at 0, whereas alone the rule takes x to 1. *)
Lemma unparsable_rule_disables_all :
  rule_sides "x = x + 1" = Some ("x", "x + 1") /\
  length (prepare_updates ["x = x + 1"]) = 1%nat /\
  length (prepare_updates ["x = x + 1"; "y = ("]) = 0%nat /\
  dict_get
    (fst (step (call3 (Sym "x")) (prepare_updates ["x = x + 1"; "y = ("])
            (sample_equation "x" ["x = x + 1"; "y = ("]) (1 # 2) (1 # 8)
            0%nat 0 sample_heap)) 0%nat "x" 0 = 0 /\
  dict_get
    (fst (step (call3 (Sym "x")) (prepare_updates ["x = x + 1"])
            (sample_equation "x" ["x = x + 1"]) (1 # 2) (1 # 8)
            0%nat 0 sample_heap)) 0%nat "x" 0 = 1.
Proof. repeat split; vm_compute; reflexivity. Qed.

(** C2, counterexample: with the rules ['x = x + 1', 'y = x'] and x
    at 0 before the step, y is 1 after the step, the value of x after
    its update, not the value 0 it had before. *)
Lemma second_rule_sees_first_update :
  dict_get sample_heap 0%nat "x" 0 = 0 /\
  dict_get
    (fst (step (call3 (Sym "x")) (prepare_updates ["x = x + 1"; "y = x"])
            (sample_equation "x" ["x = x + 1"; "y = x"]) (1 # 2) (1 # 8)
            0%nat 0 sample_heap)) 0%nat "x" 0 = 1 /\
  dict_get
    (fst (step (call3 (Sym "x")) (prepare_updates ["x = x + 1"; "y = x"])
            (sample_equation "x" ["x = x + 1"; "y = x"]) (1 # 2) (1 # 8)
            0%nat 0 sample_heap)) 0%nat "y" 0 = 1.
Proof. repeat split; vm_compute; reflexivity. Qed.

Lemma updates_read_current_state_witness :
  apply_updates (prepare_updates ["x = x + 1"] ++ [("y", call4 (Sym "x"))])
    0 0%nat sample_heap =
    dict_setitem (apply_updates (prepare_updates ["x = x + 1"]) 0 0%nat sample_heap)
      0%nat "y" 1 /\
  dict_get
    (apply_updates (prepare_updates ["x = x + 1"] ++ [("y", call4 (Sym "x"))])
       0 0%nat sample_heap) 0%nat "y" 0 = 1 /\
  forall k, k <> "y" ->
    dict_get
      (apply_updates (prepare_updates ["x = x + 1"] ++ [("y", call4 (Sym "x"))])
         0 0%nat sample_heap) 0%nat k 0 =
    dict_get (apply_updates (prepare_updates ["x = x + 1"]) 0 0%nat sample_heap)
      0%nat k 0.
Proof.
  apply (updates_read_current_state (prepare_updates ["x = x + 1"]) "y"
           (call4 (Sym "x")) 0 0%nat sample_heap 1).
  - simpl. lia.
  - vm_compute. reflexivity.
Defined.

Lemma failing_rules_and_limits_witness :
  prepare_updates (["x = x + 1"] ++ "nothing" :: ["y = x"]) =
    prepare_updates (["x = x + 1"] ++ ["y = x"]) /\
  prepare_updates (["x = x + 1"] ++ "y = (" :: ["y = x"]) = [] /\
  apply_updates ([] ++ ("y", call4 (Sym "w")) :: prepare_updates ["x = x + 1"])
    0 0%nat sample_heap =
    apply_updates ([] ++ prepare_updates ["x = x + 1"]) 0 0%nat sample_heap /\
  apply_limits ([("x", [Some 0; Some 5])] ++ ("y", [Some 10]) :: []) 0%nat sample_heap =
    apply_limits ([("x", [Some 0; Some 5])] ++ []) 0%nat sample_heap.
Proof.
  destruct failing_rules_and_limits as (Hshape & Hparse & Heval & Hlimit).
  split; [|split; [|split]].
  - apply Hshape. reflexivity.
  - apply (Hparse ["x = x + 1"] "y = (" ["y = x"] "y" "("); reflexivity.
  - apply Heval. reflexivity.
  - apply Hlimit. reflexivity.
Defined.

(** The limit example of the specification: x starts at 9, the rule
    ['x = x + 1'] takes it to 10 and the limit [10, 0] resets it to 0
    within the same step. *)
Example limit_reset :
  dict_get
    (fst (step (call3 (Sym "x")) (prepare_updates ["x = x + 1"])
            {| name := "lead"; expr := "x"; vars := Some 0%nat;
               updates := ["x = x + 1"]; eval_rate := 1 # 4;
               active_window := (0, 1); mapping := sample_mapping;
               limits := [("x", [Some 10; Some 0])] |}
            (1 # 2) (1 # 8) 0%nat 0 [ {[ "x" := 9 ]} ])) 0%nat "x" 0 = 0.
Proof. vm_compute. reflexivity. Qed.


End SequencerFacts.

(* ===================================================================== *)
(** ** Properties of [render_config] *)
(* ===================================================================== *)

Module RenderFacts.
Import Engine PyFacts HeapFacts SequencerFacts.
Local Open Scope Q_scope.

Section WithEvaluator.
Context `{Evaluator}.

(** *** The store *)

Lemma step_only_at fn update_fns e beat_seconds dt l t h :
  only_at l h (fst (step fn update_fns e beat_seconds dt l t h)).
Proof.
  unfold step. simpl.
  eapply only_at_trans; [apply apply_updates_only_at|apply apply_limits_only_at].
Qed.

Lemma simulate_only_at fn update_fns e beat_seconds dt l :
  forall fuel t h notes h' ns,
    simulate fuel fn update_fns e beat_seconds dt l t h notes = Some (h', ns) ->
    only_at l h h'.
Proof.
  induction fuel as [|fuel IH]; intros t h notes h' ns; simpl.
  - destruct (Qle_bool _ _); [discriminate|]. intros [= <- <-]. apply only_at_refl.
  - destruct (Qle_bool _ _); [|intros [= <- <-]; apply only_at_refl].
    intros Hsim. eapply only_at_trans; [|eapply IH; exact Hsim].
    apply (step_only_at fn update_fns e beat_seconds dt l t h).
Qed.

Lemma render_equation_extends fuel beat_seconds e h pm :
  exists fresh, fst (fst (render_equation fuel beat_seconds e h pm)) = h ++ fresh.
Proof.
  unfold render_equation.
  destruct (Parser.parse_expr (expr e)) as [err|[fn m]]; simpl.
  { exists []. rewrite app_nil_r. reflexivity. }
  destruct (simulate _ _ _ _ _ _ _ _ _ _) as [[h1 ns]|] eqn:Hsim; simpl.
  - apply simulate_only_at in Hsim. apply only_at_fresh in Hsim as [d' ->].
    exists [d']. reflexivity.
  - eexists. reflexivity.
Qed.

Lemma render_equations_extends fuel beat_seconds eqs :
  forall h pm,
    exists fresh, fst (fst (render_equations fuel beat_seconds eqs h pm)) = h ++ fresh.
Proof.
  induction eqs as [|e eqs IH]; intros h pm; simpl.
  - exists []. rewrite app_nil_r. reflexivity.
  - destruct (render_equation_extends fuel beat_seconds e h pm) as [fresh1 H1].
    destruct (render_equation fuel beat_seconds e h pm) as [[h1 pm1] out1].
    simpl in H1. subst h1.
    destruct out1; try (exists fresh1; reflexivity).
    destruct (IH (h ++ fresh1) pm1) as [fresh2 H2].
    exists (fresh1 ++ fresh2). rewrite H2, app_assoc. reflexivity.
Qed.

(** *** Errors *)

Lemma render_equations_app fuel beat_seconds eqs1 eqs2 :
  forall h pm,
    render_equations fuel beat_seconds (eqs1 ++ eqs2) h pm =
    match render_equations fuel beat_seconds eqs1 h pm with
    | (h', pm', Returned) => render_equations fuel beat_seconds eqs2 h' pm'
    | stopped => stopped
    end.
Proof.
  induction eqs1 as [|e eqs1 IH]; intros h pm; simpl; [reflexivity|].
  destruct (render_equation fuel beat_seconds e h pm) as [[h1 pm1] [| |]];
    try reflexivity.
  apply IH.
Qed.

Lemma parse_expr_unsupported text expr_bad :
  sympify text = Some expr_bad ->
  ~ free_symbols expr_bad ⊆ Parser.allowed ->
  Parser.parse_expr text =
  inl (Parser.ValueError (free_symbols expr_bad ∖ Parser.allowed)).
Proof.
  intros Hsym Hfree. unfold Parser.parse_expr. rewrite Hsym.
  destruct (decide (free_symbols expr_bad ⊆ Parser.allowed)); [contradiction|].
  reflexivity.
Qed.

(** C10: [render_config] leaves every dictionary of the caller as it
    was: the store after the call, whatever its outcome, begins with the
    store before the call; the simulation writes only to the copies it
    allocates. *)
Theorem render_config_preserves_input (fuel : nat) (config : Config) (h : heap) :
  take (length h) (fst (fst (render_config fuel config h))) = h /\
  exists fresh, fst (fst (render_config fuel config h)) = h ++ fresh.
Proof.
  assert (exists fresh, fst (fst (render_config fuel config h)) = h ++ fresh)
    as [fresh Hfresh].
  { unfold render_config. destruct (Qeq_bool (tempo config) 0); simpl.
    - exists []. rewrite app_nil_r. reflexivity.
    - apply render_equations_extends. }
  split; [|exists fresh; exact Hfresh].
  rewrite Hfresh, take_app_length. reflexivity.
Qed.

(** C3 (amended): when the expression of an equation has a free symbol
    outside x, y, z, the equations listed before it are rendered first,
    stepping loops included; if they all return, [render_config] raises
    the error that names the offending symbols, with the store and the
    instruments exactly as the earlier equations left them: the loop of
    the offending equation and everything about the later equations are
    never run. If an earlier equation raises or does not end, that is the
    outcome. In particular, when the offending equation comes first,
    no stepping loop runs at all. *)
Theorem unsupported_symbol_raises (fuel : nat) (config : Config)
    (before : list Equation) (bad : Equation) (after : list Equation)
    (expr_bad : Expr) (h : heap) :
  ~ tempo config == 0 ->
  equations config = before ++ bad :: after ->
  sympify (expr bad) = Some expr_bad ->
  ~ free_symbols expr_bad ⊆ Parser.allowed ->
  (exists s, s ∈ free_symbols expr_bad ∖ Parser.allowed) /\
  render_config fuel config h =
    match render_equations fuel (beat_seconds (tempo config)) before h [] with
    | (h', pm', Returned) =>
        (h', pm',
         Raised (ParseError
                   (Parser.ValueError (free_symbols expr_bad ∖ Parser.allowed))))
    | stopped => stopped
    end /\
  (before = [] ->
   render_config fuel config h =
     (h, [], Raised (ParseError
                       (Parser.ValueError (free_symbols expr_bad ∖ Parser.allowed))))).
Proof.
  intros Htempo Heqs Hsym Hfree.
  assert (render_equation fuel (beat_seconds (tempo config)) bad =
          fun h0 pm0 =>
            (h0, pm0, Raised (ParseError (Parser.ValueError
                                (free_symbols expr_bad ∖ Parser.allowed)))))
    as Hbad.
  { unfold render_equation.
    rewrite (parse_expr_unsupported _ _ Hsym Hfree). reflexivity. }
  assert (render_config fuel config h =
          match render_equations fuel (beat_seconds (tempo config)) before h [] with
          | (h', pm', Returned) =>
              (h', pm', Raised (ParseError (Parser.ValueError
                                  (free_symbols expr_bad ∖ Parser.allowed))))
          | stopped => stopped
          end) as Hrender.
  { unfold render_config.
    destruct (Qeq_bool (tempo config) 0) eqn:E.
    { apply Qeq_bool_iff in E. contradiction. }
    rewrite Heqs, render_equations_app.
    destruct (render_equations _ _ before h []) as [[h1 pm1] [| |]];
      try reflexivity.
    simpl. rewrite Hbad. reflexivity. }
  split; [|split].
  - destruct (set_choose_or_empty (free_symbols expr_bad ∖ Parser.allowed))
      as [Hex|Hempty]; [exact Hex|].
    exfalso. apply Hfree. intros s Hs.
    destruct (decide (s ∈ Parser.allowed)) as [Hin|Hnotin]; [exact Hin|].
    assert (s ∈ free_symbols expr_bad ∖ Parser.allowed) as Hdiff
      by (apply elem_of_difference; split; assumption).
    rewrite Hempty in Hdiff. set_solver.
  - exact Hrender.
  - intros ->. rewrite Hrender. reflexivity.
Qed.

End WithEvaluator.

Import Sample.

(** C3, counterexample: the second equation uses the symbol w; when
    the error is raised the stepping loop of the first equation has run
    and produced its nine notes. *)
Lemma earlier_equation_simulated_before_error :
  exists h' lead,
    render_config 100
      {| tempo := 120;
         equations := [sample_equation "x" []; sample_equation "w" []] |}
      sample_heap =
      (h', [lead], Raised (ParseError (Parser.ValueError {[ "w" ]}))) /\
    length (notes lead) = 9%nat.
Proof.
  eexists _, _. split; vm_compute; reflexivity.
Qed.

Lemma unsupported_symbol_raises_witness :
  (exists s, s ∈ symbols (Sym "w") ∖ Parser.allowed) /\
  render_config 100
    {| tempo := 120; equations := [] ++ sample_equation "w" [] :: [] |}
    sample_heap =
    (sample_heap, [],
     Raised (ParseError (Parser.ValueError (symbols (Sym "w") ∖ Parser.allowed)))).
Proof.
  destruct (unsupported_symbol_raises (H := evaluator) 100
              {| tempo := 120; equations := [] ++ sample_equation "w" [] :: [] |}
              [] (sample_equation "w" []) [] (Sym "w") sample_heap)
    as (Hsym & _ & Hfirst).
  - intros Hzero. discriminate Hzero.
  - reflexivity.
  - reflexivity.
  - apply (proj1 (bool_decide_eq_false
                     (symbols (Sym "w") ⊆ Parser.allowed))).
    vm_compute. reflexivity.
  - split; [exact Hsym|]. apply Hfirst. reflexivity.
Defined.

(** The caller's dictionary keeps x at 0 while the copy has been stepped
    nine times. *)
Example caller_vars_untouched :
  (fun h' => (h' !! 0%nat ≫= (.!! "x"), h' !! 1%nat ≫= (.!! "x")))
    (fst (fst (render_config 100
       {| tempo := 120; equations := [sample_equation "x" ["x = x + 1"]] |}
       sample_heap)))
  = (Some 0, Some 9).
Proof. vm_compute. reflexivity. Qed.

End RenderFacts.

(* ===================================================================== *)
(** ** Rounding and the rhythm grid *)
(* ===================================================================== *)

Module GridFacts.
Import Engine PyFacts.
Local Open Scope Q_scope.

Lemma floor_frac q : 0 <= q - inject_Z (Qfloor q) /\ q - inject_Z (Qfloor q) < 1.
Proof.
  pose proof (Qfloor_le q) as Hlo. pose proof (Qlt_floor q) as Hhi.
  rewrite inject_Z_plus in Hhi. change (inject_Z 1) with 1 in Hhi. lra.
Qed.


Lemma round_comp q q' : q == q' -> Py.round q = Py.round q'.
Proof.
  intros Heq. unfold Py.round. rewrite (Qfloor_comp _ _ Heq).
  assert (q - inject_Z (Qfloor q') == q' - inject_Z (Qfloor q')) as Hfrac
    by (rewrite Heq; reflexivity).
  rewrite (Qcompare_comp _ _ Hfrac _ _ (Qeq_refl (1 # 2))). reflexivity.
Qed.

Lemma round_inject (z : Z) : Py.round (inject_Z z) = z.
Proof.
  unfold Py.round. rewrite Qfloor_Z.
  destruct (Qcompare_spec (inject_Z z - inject_Z z) (1 # 2)) as [Heq|Hlt|Hgt];
    [lra|reflexivity|lra].
Qed.

(** [round] is at most one half away from its argument. *)
Lemma round_near q :
  q - (1 # 2) <= inject_Z (Py.round q) /\ inject_Z (Py.round q) <= q + (1 # 2).
Proof.
  destruct (floor_frac q) as [Hf1 Hf2]. unfold Py.round.
  destruct (Qcompare_spec (q - inject_Z (Qfloor q)) (1 # 2)) as [Heq|Hlt|Hgt].
  - destruct (Z.even (Qfloor q)).
    + lra.
    + rewrite inject_Z_plus. change (inject_Z 1) with 1. lra.
  - lra.
  - rewrite inject_Z_plus. change (inject_Z 1) with 1. lra.
Qed.

Lemma round_mono q q' : q <= q' -> (Py.round q <= Py.round q')%Z.
Proof.
  intros Hle. pose proof (Qfloor_resp_le q q' Hle) as Hfl.
  destruct (floor_frac q) as [Hf1 Hf2]. destruct (floor_frac q') as [Hf1' Hf2'].
  unfold Py.round.
  destruct (Z.eq_dec (Qfloor q) (Qfloor q')) as [Hsame|Hdiff].
  - rewrite <- Hsame in *.
    destruct (Qcompare_spec (q - inject_Z (Qfloor q)) (1 # 2)) as [Heq|Hlt|Hgt];
      destruct (Qcompare_spec (q' - inject_Z (Qfloor q)) (1 # 2)) as [Heq'|Hlt'|Hgt'];
      try lra; try lia; destruct (Z.even (Qfloor q)); lia.
  - destruct (Qcompare (q - inject_Z (Qfloor q)) (1 # 2));
      destruct (Qcompare (q' - inject_Z (Qfloor q')) (1 # 2));
      destruct (Z.even (Qfloor q)); destruct (Z.even (Qfloor q')); lia.
Qed.

(** X1: without quantization ([quant <= 0]) a time is returned as it is;
    with a positive [quant] and a positive beat length the result is an
    integer multiple of the grid [beat_seconds * quant] at most half a
    grid step away from the time. *)
Theorem quantize_time_nearest (t quant beat_seconds : Q) :
  (quant <= 0 -> _quantize_time t quant beat_seconds = t) /\
  (0 < quant -> 0 < beat_seconds ->
   exists k : Z,
     _quantize_time t quant beat_seconds = inject_Z k * (beat_seconds * quant) /\
     t - beat_seconds * quant / 2 <= _quantize_time t quant beat_seconds /\
     _quantize_time t quant beat_seconds <= t + beat_seconds * quant / 2).
Proof.
  unfold _quantize_time. split.
  - intros Hq. apply Qle_bool_iff in Hq. rewrite Hq. reflexivity.
  - intros Hq Hbs. apply Qle_bool_false in Hq. rewrite Hq.
    set (g := beat_seconds * quant).
    assert (0 < g) as Hg.
    { subst g. apply Qmult_lt_0_compat; [exact Hbs|].
      apply Qle_bool_false. exact Hq. }
    exists (Py.round (t / g)). split; [reflexivity|].
    destruct (round_near (t / g)) as [Hlo Hhi].
    apply (Qmult_le_compat_r _ _ g) in Hlo; [|lra].
    apply (Qmult_le_compat_r _ _ g) in Hhi; [|lra].
    assert ((t / g - (1 # 2)) * g == t - g / 2) as E1 by (field; lra).
    assert ((t / g + (1 # 2)) * g == t + g / 2) as E2 by (field; lra).
    rewrite E1 in Hlo. rewrite E2 in Hhi. split; assumption.
Qed.

(** X2: quantizing twice is quantizing once: a quantized time is a fixed
    point of [_quantize_time]. *)
Theorem quantize_time_idempotent (t quant beat_seconds : Q) :
  0 < beat_seconds ->
  _quantize_time (_quantize_time t quant beat_seconds) quant beat_seconds =
  _quantize_time t quant beat_seconds.
Proof.
  intros Hbs. unfold _quantize_time.
  destruct (Qle_bool quant 0) eqn:Hq; [reflexivity|].
  apply Qle_bool_false in Hq.
  set (g := beat_seconds * quant).
  assert (0 < g) as Hg by (subst g; apply Qmult_lt_0_compat; assumption).
  assert (inject_Z (Py.round (t / g)) * g / g == inject_Z (Py.round (t / g)))
    as Heq by (field; lra).
  rewrite (round_comp _ _ Heq), round_inject. reflexivity.
Qed.

(** Rounding to the grid keeps the order of two times. *)
Lemma grid_round_mono g t t' :
  0 < g -> t <= t' ->
  inject_Z (Py.round (t / g)) * g <= inject_Z (Py.round (t' / g)) * g.
Proof.
  intros Hg Hle. apply Qmult_le_compat_r; [|lra].
  rewrite <- Zle_Qle. apply round_mono.
  unfold Qdiv. apply Qmult_le_compat_r; [exact Hle|].
  apply Qlt_le_weak, Qinv_lt_0_compat. exact Hg.
Qed.

Lemma quantize_mono t t' quant beat_seconds :
  0 < beat_seconds -> t <= t' ->
  _quantize_time t quant beat_seconds <= _quantize_time t' quant beat_seconds.
Proof.
  intros Hbs Hle. unfold _quantize_time.
  destruct (Qle_bool quant 0) eqn:Hq; [exact Hle|].
  apply Qle_bool_false in Hq. apply grid_round_mono; [|exact Hle].
  apply Qmult_lt_0_compat; assumption.
Qed.

(** X3: [_quantize_time] never reverses the order of two times, with or
    without quantization. *)
Theorem quantize_time_monotone (t t' quant beat_seconds : Q) :
  0 < beat_seconds -> t <= t' ->
  _quantize_time t quant beat_seconds <= _quantize_time t' quant beat_seconds.
Proof.
  intros Hbs Hle. unfold _quantize_time.
  destruct (Qle_bool quant 0) eqn:Hq.
  - (* no quantization: the times themselves *)
    exact Hle.
  - (* on the grid [beat_seconds * quant], which is positive *)
    apply Qle_bool_false in Hq.
    assert (0 < beat_seconds * quant) as Hg
      by (apply Qmult_lt_0_compat; assumption).
    apply grid_round_mono; [exact Hg|exact Hle].
Qed.

End GridFacts.

(* ===================================================================== *)
(** ** The stepping loop as a whole *)
(* ===================================================================== *)

Module LoopFacts.
Import Engine EngineAux PyFacts GridFacts HeapFacts SequencerFacts.
Local Open Scope Q_scope.






Section WithEvaluator.
Context `{Evaluator}.


Lemma step_notes_start m beat_seconds dt end_t v t :
  Forall (fun n => start n = _quantize_time t (rhythm_quant m) beat_seconds)
    (step_notes m beat_seconds dt end_t v t).
Proof.
  rewrite StepFacts.step_notes_unfold. simpl.
  apply Forall_fmap, Forall_forall. intros p _. simpl.
  unfold note_interval. destruct (Qle_bool _ _); reflexivity.
Qed.




Lemma starts_sorted_app notes ns bound :
  starts_sorted notes ->
  Forall (fun n => start n <= bound) notes ->
  Forall (fun n => start n = bound) ns ->
  starts_sorted (notes ++ ns).
Proof.
  intros Hsorted Hbelow Hnew i j n n' Hi Hj Hij.
  destruct (decide (j < length notes)%nat) as [Hjl|Hjr].
  - rewrite lookup_app_l in Hi by lia. rewrite lookup_app_l in Hj by lia.
    eapply Hsorted; eassumption.
  - rewrite lookup_app_r in Hj by lia.
    apply list_elem_of_lookup_2 in Hj.
    rewrite Forall_forall in Hnew. rewrite (Hnew _ Hj).
    destruct (decide (i < length notes)%nat) as [Hil|Hir].
    + rewrite lookup_app_l in Hi by lia. apply list_elem_of_lookup_2 in Hi.
      rewrite Forall_forall in Hbelow. apply Hbelow. exact Hi.
    + rewrite lookup_app_r in Hi by lia. apply list_elem_of_lookup_2 in Hi.
      rewrite (Hnew _ Hi). lra.
Qed.

Lemma simulate_sorted fn update_fns e beat_seconds dt l :
  0 < beat_seconds -> 0 <= dt ->
  forall fuel t h notes h' ns,
    simulate fuel fn update_fns e beat_seconds dt l t h notes = Some (h', ns) ->
    starts_sorted notes ->
    Forall (fun n => start n
                     <= _quantize_time t (rhythm_quant (mapping e)) beat_seconds)
      notes ->
    starts_sorted ns.
Proof.
  intros Hbs Hdt. induction fuel as [|fuel IH]; intros t h notes h' ns; simpl.
  - destruct (Qle_bool _ _); [discriminate|]. intros [= <- <-] Hs _. exact Hs.
  - destruct (Qle_bool _ _); [|intros [= <- <-] Hs _; exact Hs].
    intros Hsim Hs Hbelow. eapply IH; [exact Hsim| |].
    + eapply starts_sorted_app; [exact Hs|exact Hbelow|apply step_notes_start].
    + pose proof (quantize_mono t (t + dt) (rhythm_quant (mapping e))
                    beat_seconds Hbs ltac:(lra)) as Hmono.
      apply Forall_app. split.
      * eapply Forall_impl; [exact Hbelow|]. intros n Hn. simpl in Hn. lra.
      * eapply Forall_impl; [apply step_notes_start|].
        intros n Hn. simpl in Hn. rewrite Hn. exact Hmono.
Qed.

(** X4: for a positive tempo the notes of a track come in non-decreasing
    order of their start time. *)
Theorem track_starts_sorted (tempo : Q) (e : Equation) (fn : fn3)
    (update_fns : list (string * fn4)) (vars_local : loc) (h h' : heap)
    (fuel : nat) (ns : list Note) :
  0 < tempo ->
  simulate fuel fn update_fns e (beat_seconds tempo)
    (step_dt (beat_seconds tempo) (eval_rate e)) vars_local
    (fst (active_window e)) h [] = Some (h', ns) ->
  forall i j n n',
    ns !! i = Some n -> ns !! j = Some n' -> (i <= j)%nat -> start n <= start n'.
Proof.
  intros Htempo Hsim. pose proof (beat_seconds_pos tempo Htempo) as Hbs.
  pose proof (step_dt_pos (beat_seconds tempo) (eval_rate e) Hbs) as Hdt.
  eapply (simulate_sorted fn update_fns e (beat_seconds tempo)); try exact Hsim.
  - exact Hbs.
  - lra.
  - intros i j n n' Hi. rewrite lookup_nil in Hi. discriminate.
  - constructor.
Qed.


End WithEvaluator.
End LoopFacts.

(* ===================================================================== *)
(** ** Variables, update rules and limits *)
(* ===================================================================== *)

Module VariableFacts.
Import Engine PyFacts HeapFacts SequencerFacts.
Local Open Scope Q_scope.

Lemma load_setitem_ne h l k k' v :
  k <> k' -> load (dict_setitem h l k v) l !! k' = load h l !! k'.
Proof.
  intros Hne. unfold load, dict_setitem. rewrite list_lookup_alter_eq.
  destruct (h !! l) as [d|]; simpl; [|reflexivity].
  apply lookup_insert_ne. exact Hne.
Qed.

Lemma dict_setitem_commute h l k1 v1 k2 v2 :
  k1 <> k2 ->
  dict_setitem (dict_setitem h l k1 v1) l k2 v2 =
  dict_setitem (dict_setitem h l k2 v2) l k1 v1.
Proof.
  intros Hne. unfold dict_setitem. rewrite !list_alter_alter_eq.
  apply list_alter_ext; [|reflexivity]. intros d _. simpl.
  apply insert_insert_ne. congruence.
Qed.

Lemma apply_limit_length l h entry : length (apply_limit l h entry) = length h.
Proof. apply apply_limit_only_at. Qed.

Lemma apply_limits_length lims l h : length (apply_limits lims l h) = length h.
Proof. apply apply_limits_only_at. Qed.

(** A limit leaves the other variables alone. *)
Lemma apply_limit_other l h varname lim k :
  k <> varname ->
  load (apply_limit l h (varname, lim)) l !! k = load h l !! k.
Proof.
  intros Hne. simpl.
  destruct (lim !! 0%nat) as [[threshold|]|]; try reflexivity.
  destruct (lim !! 1%nat) as [[reset_to|]|]; try reflexivity.
  destruct (Qle_bool _ _); [|reflexivity].
  apply load_setitem_ne. congruence.
Qed.

Lemma dict_get_load h h' l k dflt :
  load h' l !! k = load h l !! k -> dict_get h' l k dflt = dict_get h l k dflt.
Proof. intros Heq. unfold dict_get. rewrite Heq. reflexivity. Qed.

Lemma apply_limits_other lims l h k :
  k ∉ lims.*1 ->
  load (apply_limits lims l h) l !! k = load h l !! k.
Proof.
  revert h. induction lims as [|[varname lim] lims IH]; intros h Hk;
    [reflexivity|].
  rewrite apply_limits_cons. rewrite fmap_cons in Hk. simpl in Hk.
  apply not_elem_of_cons in Hk as [Hne Hk].
  rewrite IH by exact Hk. apply apply_limit_other. exact Hne.
Qed.

(** What one well-formed limit does to its own variable. *)
Lemma apply_limit_own l h varname lim threshold reset_to :
  (l < length h)%nat ->
  lim !! 0%nat = Some (Some threshold) -> lim !! 1%nat = Some (Some reset_to) ->
  dict_get (apply_limit l h (varname, lim)) l varname 0 =
  if Qle_bool threshold (dict_get h l varname 0) then reset_to
  else dict_get h l varname 0.
Proof.
  intros Hl H0 H1. simpl. rewrite H0, H1.
  destruct (Qle_bool _ _); [|reflexivity].
  apply dict_get_setitem_eq. exact Hl.
Qed.

(** Two limits on different variables can be applied in either order. *)
Lemma apply_limit_swap l h k1 lim1 k2 lim2 :
  k1 <> k2 ->
  apply_limit l (apply_limit l h (k1, lim1)) (k2, lim2) =
  apply_limit l (apply_limit l h (k2, lim2)) (k1, lim1).
Proof.
  intros Hne.
  simpl.
  destruct (lim1 !! 0%nat) as [[th1|]|]; try reflexivity;
    destruct (lim1 !! 1%nat) as [[rs1|]|]; try reflexivity;
    destruct (lim2 !! 0%nat) as [[th2|]|]; try reflexivity;
    destruct (lim2 !! 1%nat) as [[rs2|]|]; try reflexivity.
  destruct (Qle_bool th1 (dict_get h l k1 0)) eqn:E1;
    destruct (Qle_bool th2 (dict_get h l k2 0)) eqn:E2;
    rewrite ?dict_get_setitem_ne by congruence; rewrite ?E1, ?E2;
    try reflexivity.
  apply dict_setitem_commute. exact Hne.
Qed.

(** X6: when every variable has at most one limit, a limit whose
    threshold and reset value can be read sets its variable to the reset
    value exactly when the variable, as the update rules left it, has
    reached the threshold, and leaves it alone otherwise; so after the
    limits the variable is below its threshold or equal to the reset
    value. *)
Theorem limit_enforced (limits : list (string * list (option Q)))
    (vars_local : loc) (h : heap) (varname : string) (lim : list (option Q))
    (threshold reset_to : Q) :
  (vars_local < length h)%nat ->
  NoDup limits.*1 ->
  (varname, lim) ∈ limits ->
  lim !! 0%nat = Some (Some threshold) ->
  lim !! 1%nat = Some (Some reset_to) ->
  dict_get (apply_limits limits vars_local h) vars_local varname 0 =
    (if Qle_bool threshold (dict_get h vars_local varname 0) then reset_to
     else dict_get h vars_local varname 0) /\
  (dict_get (apply_limits limits vars_local h) vars_local varname 0 < threshold \/
   dict_get (apply_limits limits vars_local h) vars_local varname 0 = reset_to).
Proof.
  intros Hl Hnd Hin H0 H1.
  assert (dict_get (apply_limits limits vars_local h) vars_local varname 0 =
          (if Qle_bool threshold (dict_get h vars_local varname 0) then reset_to
           else dict_get h vars_local varname 0)) as Hval.
  { revert h Hl. induction limits as [|[k lim'] limits IH]; intros h Hl.
    - inversion Hin.
    - rewrite fmap_cons in Hnd. simpl in Hnd.
      apply NoDup_cons in Hnd as [Hnotin Hnd].
      rewrite apply_limits_cons.
      apply elem_of_cons in Hin as [Heq|Hin].
      + injection Heq as <- <-.
        rewrite (dict_get_load _ _ _ _ _ (apply_limits_other _ _ _ _ Hnotin)).
        apply apply_limit_own; assumption.
      + assert (varname <> k) as Hne.
        { intros ->. apply Hnotin. apply list_elem_of_fmap.
          exists (k, lim). split; [reflexivity|exact Hin]. }
        rewrite (IH Hnd Hin) by (rewrite apply_limit_length; exact Hl).
        rewrite (dict_get_load _ _ _ _ _
                   (apply_limit_other vars_local h k lim' varname Hne)).
        reflexivity. }
  split; [exact Hval|]. rewrite Hval.
  destruct (Qle_bool threshold (dict_get h vars_local varname 0)) eqn:E.
  - right. reflexivity.
  - left. apply Qle_bool_false. exact E.
Qed.

(** X7: when every variable has at most one limit, the order in which
    the limits are listed does not matter. *)
Theorem limits_order_irrelevant (limits limits' : list (string * list (option Q)))
    (vars_local : loc) (h : heap) :
  limits ≡ₚ limits' -> NoDup limits.*1 ->
  apply_limits limits vars_local h = apply_limits limits' vars_local h.
Proof.
  intros Hperm. revert h.
  induction Hperm as [|entry lims lims' Hperm IH|[k1 lim1] [k2 lim2] lims
                      |lims1 lims2 lims3 Hp12 IH12 Hp23 IH23]; intros h Hnd.
  - reflexivity.
  - rewrite !apply_limits_cons. apply IH.
    rewrite fmap_cons in Hnd. apply NoDup_cons in Hnd as [_ Hnd]. exact Hnd.
  - rewrite !apply_limits_cons. f_equal. apply apply_limit_swap.
    rewrite !fmap_cons in Hnd. simpl in Hnd.
    apply NoDup_cons in Hnd as [Hnotin _].
    apply not_elem_of_cons in Hnotin as [Hne _]. congruence.
  - rewrite IH12 by exact Hnd. apply IH23.
    assert (lims1.*1 ≡ₚ lims2.*1) as Hp by (apply fmap_Permutation; exact Hp12).
    rewrite <- Hp. exact Hnd.
Qed.

Section WithEvaluator.
Context `{Evaluator}.

Lemma collect_updates_targets updates fns :
  collect_updates updates = Some fns ->
  Forall (fun rule => rule.1 ∈ ["x"; "y"; "z"]) fns.
Proof.
  revert fns. induction updates as [|upd updates IH]; intros fns.
  - intros [= <-]. constructor.
  - rewrite collect_updates_cons.
    destruct (rule_sides upd) as [[lhs rhs]|] eqn:Hsides; [|apply IH].
    destruct (sympify rhs) as [expr_rhs|]; [|discriminate].
    destruct (collect_updates updates) as [fns'|]; [|discriminate].
    intros [= <-]. constructor; [|apply IH; reflexivity].
    simpl. unfold rule_sides in Hsides.
    destruct (Py.contains "=" upd); [|discriminate].
    destruct (Py.split1 "=" upd) as [l r].
    destruct (decide (Py.strip l ∈ ["x"; "y"; "z"])) as [Hin|]; [|discriminate].
    injection Hsides as <- _. exact Hin.
Qed.

Lemma apply_updates_other fns t l h k :
  Forall (fun rule => rule.1 <> k) fns ->
  load (apply_updates fns t l h) l !! k = load h l !! k.
Proof.
  revert h. induction fns as [|[varname f_rhs] fns IH]; intros h Hk;
    [reflexivity|].
  apply Forall_cons in Hk as [Hne Hk]. simpl in Hne.
  rewrite apply_updates_cons, IH by exact Hk. simpl.
  destruct (f_rhs _ _ _ _); [|reflexivity].
  apply load_setitem_ne. exact Hne.
Qed.

(** X8: the prepared rules write to x, y and z only: every other entry of
    the variables, present or absent, is the same after the update rules
    of a step as before. *)
Theorem updates_write_xyz_only (updates : list string) (t : Q)
    (vars_local : loc) (h : heap) (k : string) :
  k ∉ ["x"; "y"; "z"] ->
  Forall (fun rule => rule.1 ∈ ["x"; "y"; "z"]) (prepare_updates updates) /\
  load (apply_updates (prepare_updates updates) t vars_local h) vars_local !! k =
  load h vars_local !! k.
Proof.
  intros Hk.
  assert (Forall (fun rule : string * fn4 => rule.1 ∈ ["x"; "y"; "z"])
            (prepare_updates updates)) as Htargets.
  { unfold prepare_updates.
    destruct (collect_updates updates) as [fns|] eqn:E; simpl.
    - apply (collect_updates_targets updates). exact E.
    - constructor. }
  split; [exact Htargets|]. apply apply_updates_other.
  eapply Forall_impl; [exact Htargets|].
  intros rule Hin Heq. simpl in *. rewrite Heq in Hin. contradiction.
Qed.

End WithEvaluator.
End VariableFacts.

(* ===================================================================== *)
(** ** Rendering a whole configuration *)
(* ===================================================================== *)

Module ConfigFacts.
Import Engine EngineAux PyFacts HeapFacts SequencerFacts LoopFacts.
Local Open Scope Q_scope.

Section WithEvaluator.
Context `{Evaluator}.



(** One instrument is appended for an equation that returns. *)
Lemma render_equation_returned fuel beat_seconds e h pm h' pm' :
  render_equation fuel beat_seconds e h pm = (h', pm', Returned) ->
  exists ns,
    pm' = pm ++ [Build_Instrument (program_of (mapping e)) (name e) ns] /\
    length h' = S (length h).
Proof.
  unfold render_equation.
  destruct (Parser.parse_expr (expr e)) as [err|[fn m]]; [discriminate|]. simpl.
  destruct (simulate _ _ _ _ _ _ _ _ _ _) as [[h1 ns]|] eqn:Hsim;
    [|discriminate].
  intros [= <- <-]. exists ns. split; [reflexivity|].
  apply RenderFacts.simulate_only_at in Hsim. destruct Hsim as [Hlen _].
  rewrite Hlen, length_app. simpl. lia.
Qed.

Lemma render_equations_returned fuel beat_seconds eqs :
  forall h pm h' pm',
    render_equations fuel beat_seconds eqs h pm = (h', pm', Returned) ->
    track_name <$> pm' = (track_name <$> pm) ++ (name <$> eqs) /\
    program <$> pm' = (program <$> pm) ++ ((fun e => program_of (mapping e)) <$> eqs) /\
    length h' = (length h + length eqs)%nat.
Proof.
  induction eqs as [|e eqs IH]; intros h pm h' pm'; simpl.
  - intros [= <- <-]. rewrite !app_nil_r. repeat split; lia.
  - destruct (render_equation fuel beat_seconds e h pm) as [[h1 pm1] out1] eqn:He.
    destruct out1; try discriminate.
    apply render_equation_returned in He as (ns & -> & Hlen).
    intros Hrest. apply IH in Hrest as (Hnames & Hprogs & Hlen').
    rewrite Hnames, Hprogs, Hlen', Hlen, !fmap_app, <- !app_assoc. simpl.
    repeat split; lia.
Qed.

(** X9: when [render_config] returns, the MIDI object holds exactly one
    instrument per equation, in the order of the configuration, named
    after the equation, with program 0 when the instrument name is
    'piano' in any letter case (or missing) and 80 otherwise; and one copy
    of the variables has been made per equation. *)
Theorem one_instrument_per_equation (fuel : nat) (config : Config)
    (h h' : heap) (pm : list Instrument) :
  render_config fuel config h = (h', pm, Returned) ->
  track_name <$> pm = name <$> equations config /\
  program <$> pm = (fun e => program_of (mapping e)) <$> equations config /\
  length h' = (length h + length (equations config))%nat.
Proof.
  unfold render_config. destruct (Qeq_bool (tempo config) 0); [discriminate|].
  intros Hrender. apply render_equations_returned in Hrender. exact Hrender.
Qed.




End WithEvaluator.
End ConfigFacts.

(* ===================================================================== *)
(** ** The scheduler over whole sessions *)
(* ===================================================================== *)

Module SessionFacts.
Import Runner RunnerAux RunnerFacts.

Section SchedulerFacts.
Context {Equation : Type} `{EqDecision Equation}.
Implicit Types (s : sched Equation) (o : op Equation) (ops : list (op Equation)).
Implicit Types (x eq : Equation) (l a eqs : list Equation).



(** A timer that fires for an active equation frees one place in all. *)
Lemma finish_active_measure eq s :
  full_or_idle s -> eq ∈ _active s ->
  S (length (_active (_finish eq s)) + length (_queue (_finish eq s))) =
  (length (_active s) + length (_queue s))%nat.
Proof.
  intros [Hle Hfull] Hin. unfold _finish.
  destruct (list_remove_elem _ _ Hin) as [a Ha]. rewrite Ha. simpl.
  pose proof (list_remove_length _ _ _ Ha) as Hlen.
  destruct (_queue s) as [|n rest] eqn:Eq; simpl; [lia|].
  destruct (decide (length a < 3)%nat); simpl; [|lia].
  rewrite length_app. simpl. lia.
Qed.

Lemma finish_log eq s :
  full_or_idle s ->
  started (_finish eq s) ++ _queue (_finish eq s) = started s ++ _queue s.
Proof.
  intros Hinv. pose proof (exec_log s (Complete eq) Hinv) as Hlog.
  simpl in Hlog. rewrite app_nil_r in Hlog. exact Hlog.
Qed.

Lemma finish_all_drains eqs :
  forall s,
    full_or_idle s -> fires_active s eqs ->
    (length eqs <= length (_active s) + length (_queue s))%nat /\
    (length eqs = (length (_active s) + length (_queue s))%nat ->
     _active (finish_all s eqs) = [] /\ _queue (finish_all s eqs) = [] /\
     started (finish_all s eqs) = started s ++ _queue s).
Proof.
  induction eqs as [|eq eqs IH]; intros s Hinv Hfires; simpl.
  - split; [lia|]. intros Hlen.
    destruct (_active s); [|simpl in Hlen; lia].
    destruct (_queue s); [|simpl in Hlen; lia].
    rewrite app_nil_r. repeat split; reflexivity.
  - destruct Hfires as [Hin Hfires].
    pose proof (finish_active_measure eq s Hinv Hin) as Hmeasure.
    destruct (IH (_finish eq s) (finish_inv eq s Hinv) Hfires) as [Hle Hdone].
    split; [lia|]. intros Hlen.
    destruct (Hdone ltac:(lia)) as (Ha & Hq & Hs).
    rewrite finish_log in Hs by exact Hinv. repeat split; assumption.
Qed.

(** X13: in any session, once as many timers of active equations have
    fired as there are equations active or queued, both lists are empty:
    the wait loop of [interactive] ends; every equation submitted has
    then been started, in the order of submission. No more timers can
    fire than that. *)
Theorem scheduler_drains ops eqs :
  fires_active (run ops) eqs ->
  (length eqs <= length (_active (run ops)) + length (_queue (run ops)))%nat /\
  (length eqs = (length (_active (run ops)) + length (_queue (run ops)))%nat ->
   _active (finish_all (run ops) eqs) = [] /\
   _queue (finish_all (run ops) eqs) = [] /\
   started (finish_all (run ops) eqs) = submitted ops).
Proof.
  intros Hfires.
  destruct (finish_all_drains eqs (run ops) (run_inv ops) Hfires) as [Hle Hdone].
  split; [exact Hle|]. intros Hlen.
  destruct (Hdone Hlen) as (Ha & Hq & Hs).
  rewrite run_log in Hs. repeat split; assumption.
Qed.



End SchedulerFacts.
End SessionFacts.

(* ===================================================================== *)
(** ** Rules typed by the user *)
(* ===================================================================== *)

Module IntakeFacts.
Import Engine Intake SequencerFacts.

Lemma split1_first (c : ascii) (l r : string) :
  Py.contains c l = false -> Py.split1 c (l +:+ String c r) = (l, Some r).
Proof.
  induction l as [|a l IH]; simpl; intros Hc.
  - destruct (decide (c = c)); [reflexivity|contradiction].
  - destruct (decide (a = c)); [discriminate|].
    rewrite (IH Hc). reflexivity.
Qed.

Lemma contains_app (c : ascii) (l r : string) :
  Py.contains c (l +:+ String c r) = true.
Proof.
  induction l as [|a l IH]; simpl.
  - destruct (decide (c = c)); [reflexivity|contradiction].
  - destruct (decide (a = c)); [reflexivity|exact IH].
Qed.

(** X22: a rule is cut at its first '=': what precedes it, without the
    surrounding whitespace, must be x, y or z, and all that follows it,
    further '=' signs included, is the right side, without the surrounding
    whitespace. A text without '=' is no rule. *)
Theorem rule_cut_at_first_equals (lhs rhs upd : string) :
  (Py.contains "=" lhs = false ->
   rule_sides (lhs +:+ String "=" rhs) =
   if decide (Py.strip lhs ∈ ["x"; "y"; "z"])
   then Some (Py.strip lhs, Py.strip rhs) else None) /\
  (Py.contains "=" upd = false -> rule_sides upd = None).
Proof.
  split.
  - intros Hc. unfold rule_sides.
    rewrite contains_app, (split1_first _ _ _ Hc). reflexivity.
  - intros Hc. unfold rule_sides. rewrite Hc. reflexivity.
Qed.

Section WithEvaluator.
Context `{Evaluator}.

(** The engine drops empty rules. *)
Lemma collect_updates_nonempty (us : list string) :
  collect_updates (filter (fun u => u <> EmptyString) us) = collect_updates us.
Proof.
  induction us as [|u us IH]; [reflexivity|].
  rewrite filter_cons. destruct (decide (u <> EmptyString)) as [Hne|Heq].
  - rewrite !collect_updates_cons, IH. reflexivity.
  - assert (u = EmptyString) as -> by (destruct u; [reflexivity|]; exfalso;
                                       apply Heq; discriminate).
    rewrite (collect_updates_cons EmptyString). simpl. exact IH.
Qed.

(** X15: the rule text typed at the prompt of the interactive runner and
    the same text typed in the form of the GUI lead to the same update
    functions in the engine: the form keeps the empty pieces between
    semicolons that the prompt discards, and the engine skips them. No
    rule coming from the prompt is empty. *)
Theorem prompt_and_form_rules_agree (text : string) :
  prepare_updates (gui_updates text) = prepare_updates (runner_updates text) /\
  Forall (fun u => u <> EmptyString) (runner_updates text).
Proof.
  unfold gui_updates, runner_updates, prepare_updates.
  destruct text as [|a text]; [split; [reflexivity|constructor]|].
  split.
  - rewrite collect_updates_nonempty. reflexivity.
  - apply Forall_forall. intros u Hu. apply list_elem_of_filter in Hu as [Hne _].
    exact Hne.
Qed.

End WithEvaluator.
End IntakeFacts.

(* ===================================================================== *)
(** ** Properties of the UTAU exporter *)
(* ===================================================================== *)

Module UtauFacts.
Import Utau.
Local Open Scope Q_scope.

(** Among the one-letter strings only the five vowels are keys of the
    phoneme map. *)
Lemma phoneme_map_letter (c : ascii) :
  match phoneme_map !! String c EmptyString with
  | Some _ => true
  | None => false
  end = is_vowel c.
Proof.
  destruct c as [b0 b1 b2 b3 b4 b5 b6 b7].
  destruct b0, b1, b2, b3, b4, b5, b6, b7; vm_compute; reflexivity.
Qed.

Lemma vowel_not_space (c : ascii) : is_vowel c = true -> Py.is_space c = false.
Proof.
  destruct c as [b0 b1 b2 b3 b4 b5 b6 b7].
  destruct b0, b1, b2, b3, b4, b5, b6, b7; vm_compute; intros Hv;
    first [reflexivity|discriminate].
Qed.

(** The words of a text hold its characters other than whitespace, in
    order. *)
Lemma split_ws_chars (s : string) :
  concat (chars <$> split_ws s) =
  filter (fun c => Py.is_space c = false) (chars s).
Proof.
  induction s as [|a s IH]; [reflexivity|].
  change (chars (String a s)) with (a :: chars s). rewrite filter_cons.
  rewrite <- IH. clear IH.
  change (split_ws (String a s)) with
    (if Py.is_space a then split_ws s
     else match s with
          | EmptyString => [String a EmptyString]
          | String b _ =>
              if Py.is_space b then String a EmptyString :: split_ws s
              else match split_ws s with
                   | w :: ws => String a w :: ws
                   | [] => [String a EmptyString]
                   end
          end).
  destruct (Py.is_space a) eqn:Ea.
  - destruct (decide (true = false)); [discriminate|]. reflexivity.
  - destruct (decide (false = false)) as [_|Hne]; [|contradiction].
    destruct s as [|b s']; [reflexivity|].
    destruct (Py.is_space b) eqn:Eb; [reflexivity|].
    destruct (split_ws (String b s')) as [|w ws]; reflexivity.
Qed.

Lemma filter_vowel_nonspace (l : list ascii) :
  filter (fun c => is_vowel c = true)
    (filter (fun c => Py.is_space c = false) l) =
  filter (fun c => is_vowel c = true) l.
Proof.
  induction l as [|c l IH]; [reflexivity|].
  rewrite (filter_cons _ c l) at 1.
  destruct (decide (Py.is_space c = false)) as [Hs|Hs].
  - rewrite !filter_cons, IH. reflexivity.
  - rewrite IH, filter_cons.
    destruct (decide (is_vowel c = true)) as [Hv|_]; [|reflexivity].
    apply vowel_not_space in Hv. contradiction.
Qed.

Lemma letters_to_notes (note_duration : Q) (l : list ascii) :
  (phoneme ← l;
   match phoneme_map !! String phoneme EmptyString with
   | Some _ =>
       [ {| lyric := String phoneme EmptyString;
            length := Py.int (note_duration * 480);
            note_num := 60;
            flags := "B50" |} ]
   | None => []
   end) =
  (fun c => {| lyric := String c EmptyString;
               length := Py.int (note_duration * 480);
               note_num := 60;
               flags := "B50" |})
    <$> filter (fun c => is_vowel c = true) l.
Proof.
  induction l as [|c l IH]; [reflexivity|].
  rewrite filter_cons, bind_cons, IH.
  pose proof (phoneme_map_letter c) as Hc.
  destruct (phoneme_map !! String c EmptyString);
    destruct (decide (is_vowel c = true)) as [Hv|Hv];
    try reflexivity; exfalso; [apply Hv; symmetry; exact Hc|congruence].
Qed.

(** X16: [text_to_lyrics] makes one note for every vowel a, e, i, o, u of
    the text, upper or lower case, in the order of the text, and nothing
    for any other character: the two-letter entries of the phoneme map are
    never used. Every note has length [int(note_duration * 480)], note
    number 60 and flags B50. *)
Theorem text_to_lyrics_vowels (text : string) (note_duration : Q) :
  text_to_lyrics text note_duration =
  (fun c => {| lyric := String c EmptyString;
               length := Py.int (note_duration * 480);
               note_num := 60;
               flags := "B50" |})
    <$> filter (fun c => is_vowel c = true) (chars (Py.lower text)).
Proof.
  unfold text_to_lyrics.
  rewrite <- filter_vowel_nonspace, <- split_ws_chars, <- letters_to_notes.
  generalize (split_ws (Py.lower text)). intros words.
  induction words as [|w words IH]; [reflexivity|].
  rewrite bind_cons, fmap_cons, concat_cons, bind_app, IH. reflexivity.
Qed.

Example teto_lyrics :
  lyric <$> text_to_lyrics "Kasane Teto" (1 # 2) = ["a"; "a"; "e"; "e"; "o"].
Proof. vm_compute. reflexivity. Qed.

(** X17: distinct MIDI notes get distinct UTAU note numbers, twelve
    below; MIDI notes under 12 get a text that starts with a minus sign. *)
Theorem utau_pitch_distinct (m n : Z) :
  (midi_note_to_utau_pitch m = midi_note_to_utau_pitch n -> m = n) /\
  ((m < 12)%Z -> exists digits, midi_note_to_utau_pitch m = String "-" digits).
Proof.
  unfold midi_note_to_utau_pitch. split.
  - intros Heq. apply (inj pretty) in Heq. lia.
  - intros Hlow. destruct (m - 12)%Z as [|p|p] eqn:E; try lia.
    eexists. reflexivity.
Qed.

Lemma ust_notes_section (i k : nat) (midi_notes : list MidiNote)
    (note : MidiNote) (rest : list string) :
  midi_notes !! k = Some note ->
  take 6 (drop (6 * k) (ust_notes i midi_notes ++ rest)) = ust_note (i + k) note.
Proof.
  revert i k. induction midi_notes as [|n0 midi_notes IH]; intros i k Hk.
  - rewrite lookup_nil in Hk. discriminate.
  - destruct k as [|k].
    + injection Hk as ->. rewrite Nat.add_0_r. reflexivity.
    + simpl in Hk. replace (6 * S k)%nat with (6 + 6 * k)%nat by lia.
      change (ust_notes i (n0 :: midi_notes)) with
        (ust_note i n0 ++ ust_notes (S i) midi_notes).
      rewrite <- app_assoc, <- drop_drop.
      change (drop 6 (ust_note i n0 ++ ust_notes (S i) midi_notes ++ rest))
        with (ust_notes (S i) midi_notes ++ rest).
      rewrite (IH (S i) k Hk). f_equal. lia.
Qed.

Lemma ust_notes_length (i : nat) (midi_notes : list MidiNote) :
  List.length (ust_notes i midi_notes) = (6 * List.length midi_notes)%nat.
Proof.
  revert i. induction midi_notes as [|n0 midi_notes IH]; intros i; [reflexivity|].
  change (ust_notes i (n0 :: midi_notes)) with
    (ust_note i n0 ++ ust_notes (S i) midi_notes).
  rewrite length_app, IH. simpl. lia.
Qed.

(** X21: the UST text has 18 + 6 n lines for n notes: after the 13 lines
    of the header, the note at position k (from 0) fills lines 13 + 6 k to
    13 + 6 k + 5 with the section numbered k + 1, its length
    [int(duration * 480)], its lyric ('a' when it has none) and its pitch
    lowered by 12; the closing rest is numbered n + 1. The lyrics argument
    changes nothing. *)
Theorem ust_layout (tempo_text project_name lyrics lyrics' : string)
    (midi_notes : list MidiNote) (k : nat) (note : MidiNote) :
  midi_notes !! k = Some note ->
  List.length (generate_ust tempo_text project_name midi_notes lyrics) =
    (18 + 6 * List.length midi_notes)%nat /\
  take 6 (drop (13 + 6 * k)
            (generate_ust tempo_text project_name midi_notes lyrics)) =
    [ "[#" +:+ fmt04d (1 + k) +:+ "]";
      "Length=" +:+ pretty (Py.int (midi_duration note * 480));
      "Lyric=" +:+ default "a" (midi_lyric note);
      "NoteNum=" +:+ pretty (midi_pitch note - 12)%Z;
      "Flags=B50";
      "" ] /\
  drop (13 + 6 * List.length midi_notes)
    (generate_ust tempo_text project_name midi_notes lyrics) =
    ust_end (List.length midi_notes) /\
  generate_ust tempo_text project_name midi_notes lyrics =
    generate_ust tempo_text project_name midi_notes lyrics'.
Proof.
  intros Hk. unfold generate_ust. split; [|split; [|split]].
  - rewrite !length_app, ust_notes_length. simpl. lia.
  - rewrite <- drop_drop.
    change (drop 13 (ust_header tempo_text project_name ++ ?l)) with l.
    rewrite (ust_notes_section 1 k midi_notes note _ Hk). reflexivity.
  - rewrite <- drop_drop.
    change (drop 13 (ust_header tempo_text project_name ++ ?l)) with l.
    rewrite <- ust_notes_length with (i := 1%nat).
    rewrite drop_app_length. reflexivity.
  - reflexivity.
Qed.

End UtauFacts.

(* ===================================================================== *)
(** ** The mapping from values to notes *)
(* ===================================================================== *)

Module MappingFacts.
Import Engine PyFacts ScaleFacts StepFacts.
Local Open Scope Q_scope.

Lemma lower_char_idem (c : ascii) : Py.lower_char (Py.lower_char c) = Py.lower_char c.
Proof.
  destruct c as [b0 b1 b2 b3 b4 b5 b6 b7].
  destruct b0, b1, b2, b3, b4, b5, b6, b7; reflexivity.
Qed.

Lemma lower_char_dash (c : ascii) :
  Py.lower_char (if decide (Py.lower_char c = "-"%char) then "_"%char
                 else Py.lower_char c) =
  (if decide (Py.lower_char c = "-"%char) then "_"%char else Py.lower_char c).
Proof.
  destruct (decide (Py.lower_char c = "-"%char)); [reflexivity|].
  apply lower_char_idem.
Qed.

(** The key under which a scale is looked up is already in the form the
    lookup gives to names. *)
Lemma scale_key_normal (name : string) :
  Py.replace "-" "_" (Py.lower (Py.replace "-" "_" (Py.lower name))) =
  Py.replace "-" "_" (Py.lower name).
Proof.
  induction name as [|c name IH]; [reflexivity|].
  simpl. rewrite IH. f_equal. rewrite lower_char_dash.
  destruct (decide (Py.lower_char c = "-"%char)) as [Hd|Hd].
  - destruct (decide ("_"%char = "-"%char)); [discriminate|reflexivity].
  - destruct (decide (Py.lower_char c = "-"%char)); [contradiction|reflexivity].
Qed.

Lemma get_scale_degrees_table (name : string) :
  _get_scale_degrees name ∈
    [ [0; 2; 4; 5; 7; 9; 11]; [0; 2; 3; 5; 7; 8; 10];
      [0; 2; 4; 7; 9]; [0; 2; 3; 5; 7; 9; 11] ]%Z.
Proof.
  unfold _get_scale_degrees.
  destruct (scales !! _) as [sd|] eqn:Hlook; simpl;
    [|apply elem_of_cons; right; apply elem_of_cons; left; reflexivity].
  unfold scales in Hlook. apply elem_of_list_to_map_2 in Hlook.
  repeat (apply elem_of_cons in Hlook as [Hlook|Hlook];
          [injection Hlook as _ ->;
           repeat first [apply list_elem_of_here|apply list_elem_of_further]|]).
  inversion Hlook.
Qed.

(** X18: scale names are looked up without regard to letter case and with
    '-' read as '_'; whatever the name, known or not, the interval set has
    5 or 7 degrees, starts at 0, rises strictly and stays below 12, so
    that [total_steps] is at least 5; a name that is not in the table gives
    the minor set. *)
Theorem scale_lookup (name : string) :
  _get_scale_degrees (Py.replace "-" "_" (Py.lower name)) = _get_scale_degrees name /\
  (length (_get_scale_degrees name) = 5%nat \/
   length (_get_scale_degrees name) = 7%nat) /\
  nth 0 (_get_scale_degrees name) 1%Z = 0%Z /\
  (forall i j, (i < j < length (_get_scale_degrees name))%nat ->
     (0 <= nth i (_get_scale_degrees name) 0
      < nth j (_get_scale_degrees name) 0)%Z /\
     (nth j (_get_scale_degrees name) 0 <= 11)%Z) /\
  (forall octaves, (5 <= total_steps (_get_scale_degrees name) octaves)%Z) /\
  (scales !! Py.replace "-" "_" (Py.lower name) = None ->
   _get_scale_degrees name = [0; 2; 3; 5; 7; 8; 10]%Z).
Proof.
  assert (length (_get_scale_degrees name) = 5%nat \/
          length (_get_scale_degrees name) = 7%nat) as Hlen.
  { pose proof (get_scale_degrees_table name) as Hin.
    repeat (apply elem_of_cons in Hin as [->|Hin]; [auto|]). inversion Hin. }
  split; [|split; [exact Hlen|split; [|split; [|split]]]].
  - unfold _get_scale_degrees.
    destruct name as [|c name]; [reflexivity|].
    rewrite scale_key_normal.
    destruct (Py.replace "-" "_" (Py.lower (String c name))) eqn:E;
      [discriminate|reflexivity].
  - pose proof (get_scale_degrees_table name) as Hin.
    repeat (apply elem_of_cons in Hin as [->|Hin]; [reflexivity|]).
    inversion Hin.
  - intros i j Hij.
    destruct (scale_ok_nth _ (get_scale_degrees_ok name)) as (_ & Hbound & Hsorted).
    pose proof (Hbound i ltac:(lia)). pose proof (Hbound j ltac:(lia)).
    pose proof (Hsorted i j Hij). lia.
  - intros octaves. unfold total_steps.
    destruct (Z.leb_spec (Z.of_nat (length (_get_scale_degrees name)) * octaves) 0);
      destruct Hlen as [-> | ->]; nia.
  - intros Hnone. unfold _get_scale_degrees.
    destruct name as [|c name]; [reflexivity|]. rewrite Hnone. reflexivity.
Qed.

Lemma deg_index_floor sd octaves v_scaled :
  (0 < length sd)%nat ->
  deg_index sd octaves v_scaled =
  Z.max 0 (Z.min (total_steps sd octaves - 1)
             (Qfloor (v_scaled * inject_Z (total_steps sd octaves)))).
Proof.
  intros Hlen. unfold deg_index. apply clamp_int_floor.
  pose proof (total_steps_pos sd octaves Hlen). lia.
Qed.

Lemma deg_index_mono sd octaves v v' :
  (0 < length sd)%nat -> v <= v' ->
  (deg_index sd octaves v <= deg_index sd octaves v')%Z.
Proof.
  intros Hlen Hle. rewrite !deg_index_floor by exact Hlen.
  pose proof (total_steps_pos sd octaves Hlen) as Hts.
  assert (v * inject_Z (total_steps sd octaves)
          <= v' * inject_Z (total_steps sd octaves)) as Hprod.
  { apply Qmult_le_compat_r; [exact Hle|].
    change 0 with (inject_Z 0). rewrite <- Zle_Qle. lia. }
  apply Qfloor_resp_le in Hprod. lia.
Qed.

Lemma voice_pitch_mono base_midi sd d d' p :
  scale_ok sd = true -> (0 <= d <= d')%Z -> (0 <= p)%Z ->
  (voice_pitch base_midi sd d p <= voice_pitch base_midi sd d' p)%Z.
Proof.
  intros Hok Hd Hp. rewrite !voice_pitch_raw.
  destruct (Z.eq_dec d d') as [->|Hne]; [lia|].
  pose proof (raw_pitch_increasing base_midi sd (d + p) (d' + p) Hok ltac:(lia)).
  lia.
Qed.

(** X19: a larger normalised value never gives a lower scale degree or a
    lower pitch in any voice; the value 0 selects degree 0 and the value 1
    the last degree, [total_steps - 1]. *)
Theorem pitch_follows_value (m : Mapping) (name : string) (v v' : Q) :
  v <= v' ->
  (deg_index (_get_scale_degrees name) (octave_range m) v
   <= deg_index (_get_scale_degrees name) (octave_range m) v')%Z /\
  Forall2 Z.le
    (chosen (base_midi m) (_get_scale_degrees name) (polyphony m)
       (deg_index (_get_scale_degrees name) (octave_range m) v))
    (chosen (base_midi m) (_get_scale_degrees name) (polyphony m)
       (deg_index (_get_scale_degrees name) (octave_range m) v')) /\
  deg_index (_get_scale_degrees name) (octave_range m) 0 = 0%Z /\
  deg_index (_get_scale_degrees name) (octave_range m) 1 =
    (total_steps (_get_scale_degrees name) (octave_range m) - 1)%Z.
Proof.
  intros Hle. set (sd := _get_scale_degrees name).
  pose proof (get_scale_degrees_ok name) as Hok. fold sd in Hok.
  destruct (scale_ok_nth sd Hok) as (Hlen & _ & _).
  pose proof (deg_index_mono sd (octave_range m) v v' Hlen Hle) as Hmono.
  pose proof (total_steps_pos sd (octave_range m) Hlen) as Hts.
  split; [exact Hmono|]. split; [|split].
  - unfold chosen. apply Forall2_fmap, Forall_Forall2_diag, Forall_forall.
    intros p Hp. apply elem_of_seqZ in Hp.
    apply voice_pitch_mono; [exact Hok| |lia].
    pose proof (deg_index_range sd (octave_range m) v Hlen). lia.
  - rewrite deg_index_floor by exact Hlen.
    assert (0 * inject_Z (total_steps sd (octave_range m)) == inject_Z 0) as E
      by (change (inject_Z 0) with 0; ring).
    rewrite (Qfloor_comp _ _ E), Qfloor_Z. lia.
  - rewrite deg_index_floor by exact Hlen.
    assert (1 * inject_Z (total_steps sd (octave_range m))
            == inject_Z (total_steps sd (octave_range m))) as E by ring.
    rewrite (Qfloor_comp _ _ E), Qfloor_Z. lia.
Qed.

(** X20: for values that are not negative, a larger value never gives a
    lower velocity, with either curve. *)
Theorem velocity_follows_value (vel_curve : string) (v v' : Q) :
  0 <= v -> v <= v' -> (vel vel_curve v <= vel vel_curve v')%Z.
Proof.
  intros Hpos Hle.
  assert (forall x y, x <= y -> (Py.int (Py.max 1 (Py.min 127 x))
                                 <= Py.int (Py.max 1 (Py.min 127 y)))%Z) as Hmono.
  { intros x y Hxy. rewrite !int_clamp. apply Qfloor_resp_le.
    unfold clamp.
    destruct (Qlt_le_dec x 1); destruct (Qlt_le_dec y 1); try lra;
      destruct (Qlt_le_dec 127 x); destruct (Qlt_le_dec 127 y); lra. }
  unfold vel. destruct (decide (vel_curve = "exp")); apply Hmono.
  - assert (v ^ 2 <= v' ^ 2) as Hsq.
    { simpl. apply Qmult_le_compat_nonneg; split; lra. }
    lra.
  - lra.
Qed.

End MappingFacts.

(* ===================================================================== *)
(** ** The theorems above at concrete inputs *)
(* ===================================================================== *)

Module Instances.
Import Engine EngineAux Intake Sample.
Import GridFacts LoopFacts VariableFacts ConfigFacts UtauFacts MappingFacts IntakeFacts.
Local Open Scope Q_scope.

Lemma quantize_time_nearest_witness :
  _quantize_time (3 # 1) (-1) (1 # 2) = 3 # 1 /\
  exists k : Z,
    _quantize_time (1 # 3) (1 # 16) (1 # 2) = inject_Z k * ((1 # 2) * (1 # 16)) /\
    (1 # 3) - (1 # 2) * (1 # 16) / 2 <= _quantize_time (1 # 3) (1 # 16) (1 # 2) /\
    _quantize_time (1 # 3) (1 # 16) (1 # 2) <= (1 # 3) + (1 # 2) * (1 # 16) / 2.
Proof.
  destruct (quantize_time_nearest (3 # 1) (-1) (1 # 2)) as [Hid _].
  destruct (quantize_time_nearest (1 # 3) (1 # 16) (1 # 2)) as [_ Hgrid].
  split.
  - apply Hid. discriminate.
  - apply Hgrid; reflexivity.
Defined.

Lemma quantize_time_idempotent_witness :
  _quantize_time (_quantize_time (1 # 3) (1 # 16) (1 # 2)) (1 # 16) (1 # 2) =
  _quantize_time (1 # 3) (1 # 16) (1 # 2).
Proof. apply quantize_time_idempotent. reflexivity. Defined.

Lemma quantize_time_monotone_witness :
  _quantize_time (1 # 3) (1 # 16) (1 # 2) <= _quantize_time (2 # 5) (1 # 16) (1 # 2).
Proof. apply quantize_time_monotone; [reflexivity|discriminate]. Defined.

Lemma track_starts_sorted_witness :
  match
    simulate 20 (call3 (Sym "x")) [] (sample_equation "x" []) (beat_seconds 120)
      (step_dt (beat_seconds 120) (eval_rate (sample_equation "x" []))) 0%nat
      (fst (active_window (sample_equation "x" []))) sample_heap []
  with
  | Some (_, ns) =>
      forall i j n n',
        ns !! i = Some n -> ns !! j = Some n' -> (i <= j)%nat -> start n <= start n'
  | None => False
  end.
Proof.
  destruct (simulate 20 (call3 (Sym "x")) [] (sample_equation "x" [])
              (beat_seconds 120)
              (step_dt (beat_seconds 120) (eval_rate (sample_equation "x" [])))
              0%nat (fst (active_window (sample_equation "x" []))) sample_heap [])
    as [[h' ns]|] eqn:E.
  - exact (track_starts_sorted 120 (sample_equation "x" []) (call3 (Sym "x")) []
             0%nat sample_heap h' 20 ns eq_refl E).
  - vm_compute in E. discriminate E.
Defined.


Lemma limit_enforced_witness :
  dict_get (apply_limits [("x", [Some 10; Some 0])] 0%nat [ {[ "x" := 10 ]} ])
    0%nat "x" 0 =
    (if Qle_bool 10 (dict_get [ {[ "x" := 10 ]} ] 0%nat "x" 0) then 0
     else dict_get [ {[ "x" := 10 ]} ] 0%nat "x" 0) /\
  (dict_get (apply_limits [("x", [Some 10; Some 0])] 0%nat [ {[ "x" := 10 ]} ])
     0%nat "x" 0 < 10 \/
   dict_get (apply_limits [("x", [Some 10; Some 0])] 0%nat [ {[ "x" := 10 ]} ])
     0%nat "x" 0 = 0).
Proof.
  apply (limit_enforced [("x", [Some 10; Some 0])] 0%nat [ {[ "x" := 10 ]} ]
           "x" [Some 10; Some 0] 10 0).
  - simpl. lia.
  - apply (bool_decide_unpack _). vm_compute. exact I.
  - apply list_elem_of_here.
  - reflexivity.
  - reflexivity.
Defined.

Lemma limits_order_irrelevant_witness :
  apply_limits [("x", [Some 10; Some 0]); ("y", [Some 1; Some 0])] 0%nat
    [ {[ "x" := 10; "y" := 3 ]} ] =
  apply_limits [("y", [Some 1; Some 0]); ("x", [Some 10; Some 0])] 0%nat
    [ {[ "x" := 10; "y" := 3 ]} ].
Proof.
  apply limits_order_irrelevant.
  - apply perm_swap.
  - apply (bool_decide_unpack _). vm_compute. exact I.
Defined.

Lemma updates_write_xyz_only_witness :
  Forall (fun rule : string * fn4 => rule.1 ∈ ["x"; "y"; "z"])
    (prepare_updates ["x = x + 1"]) /\
  load (apply_updates (prepare_updates ["x = x + 1"]) 0 0%nat
          [ {[ "x" := 0; "w" := 7 ]} ]) 0%nat !! "w" =
  load [ {[ "x" := 0; "w" := 7 ]} ] 0%nat !! "w".
Proof.
  apply (updates_write_xyz_only ["x = x + 1"] 0 0%nat
           [ {[ "x" := 0; "w" := 7 ]} ] "w").
  apply (bool_decide_unpack _). vm_compute. exact I.
Defined.

Lemma one_instrument_per_equation_witness :
  match
    render_config 20
      {| tempo := 120;
         equations := [sample_equation "x" []; sample_equation "x + 1" []] |}
      sample_heap
  with
  | (h', pm, Returned) =>
      track_name <$> pm = ["lead"; "lead"] /\ program <$> pm = [0; 0]%Z /\
      length h' = 3%nat
  | _ => False
  end.
Proof.
  destruct (render_config 20
              {| tempo := 120;
                 equations := [sample_equation "x" []; sample_equation "x + 1" []] |}
              sample_heap) as [[h' pm] out] eqn:E.
  destruct out as [|exc|].
  - exact (one_instrument_per_equation 20
             {| tempo := 120;
                equations := [sample_equation "x" []; sample_equation "x + 1" []] |}
             sample_heap h' pm E).
  - vm_compute in E. discriminate E.
  - vm_compute in E. discriminate E.
Defined.




Lemma ust_layout_witness :
  take 6 (drop (13 + 6 * 1)
            (Utau.generate_ust "120" "AxiomSon_UTAU"
               [Utau.Build_MidiNote 60 (1 # 2) (Some "a");
                Utau.Build_MidiNote 62 (1 # 2) None] "la")) =
  ["[#0002]"; "Length=240"; "Lyric=a"; "NoteNum=50"; "Flags=B50"; ""].
Proof.
  exact (proj1 (proj2 (ust_layout "120" "AxiomSon_UTAU" "la" "la"
                         [Utau.Build_MidiNote 60 (1 # 2) (Some "a");
                          Utau.Build_MidiNote 62 (1 # 2) None]
                         1%nat (Utau.Build_MidiNote 62 (1 # 2) None) eq_refl))).
Defined.

Lemma rule_cut_at_first_equals_witness :
  rule_sides (" x " +:+ String "=" " x + 1 ") = Some ("x", "x + 1") /\
  rule_sides "nothing" = None.
Proof.
  destruct (rule_cut_at_first_equals " x " " x + 1 " "nothing") as [Hcut Hnone].
  split; [exact (Hcut eq_refl)|exact (Hnone eq_refl)].
Defined.

Lemma utau_pitch_distinct_witness :
  exists digits, Utau.midi_note_to_utau_pitch 5 = String "-" digits.
Proof.
  apply (proj2 (utau_pitch_distinct 5 5)). lia.
Defined.

Lemma scale_lookup_witness :
  (0 <= nth 0 (_get_scale_degrees "A-Minor") 0
   < nth 1 (_get_scale_degrees "A-Minor") 0)%Z /\
  (nth 1 (_get_scale_degrees "A-Minor") 0 <= 11)%Z.
Proof.
  destruct (scale_lookup "A-Minor") as (_ & _ & _ & Hsorted & _).
  apply Hsorted. vm_compute. lia.
Defined.

Lemma pitch_follows_value_witness :
  (deg_index (_get_scale_degrees "a_minor") (octave_range sample_mapping) 0
   <= deg_index (_get_scale_degrees "a_minor") (octave_range sample_mapping) (1 # 2))%Z.
Proof.
  apply (proj1 (pitch_follows_value sample_mapping "a_minor" 0 (1 # 2)
                  ltac:(discriminate))).
Defined.

Lemma velocity_follows_value_witness :
  (vel "exp" (1 # 4) <= vel "exp" (1 # 2))%Z.
Proof. apply velocity_follows_value; discriminate. Defined.

End Instances.

Module SessionInstances.
Import Runner RunnerAux RunnerFacts SessionFacts.

Lemma scheduler_drains_witness :
  _active (finish_all (run (Submit <$> [1; 2; 3; 4; 5]%nat)) [1; 2; 3; 4; 5]%nat) = [] /\
  _queue (finish_all (run (Submit <$> [1; 2; 3; 4; 5]%nat)) [1; 2; 3; 4; 5]%nat) = [] /\
  started (finish_all (run (Submit <$> [1; 2; 3; 4; 5]%nat)) [1; 2; 3; 4; 5]%nat) =
    submitted (Submit <$> [1; 2; 3; 4; 5]%nat).
Proof.
  assert (fires_active (run (Submit <$> [1; 2; 3; 4; 5]%nat)) [1; 2; 3; 4; 5]%nat)
    as Hfires.
  { vm_compute.
    repeat (split; [apply list_elem_of_In; simpl; tauto|]). exact I. }
  apply (proj2 (scheduler_drains (Submit <$> [1; 2; 3; 4; 5]%nat)
                  [1; 2; 3; 4; 5]%nat Hfires)).
  reflexivity.
Defined.


End SessionInstances.
